(** * The Node executor of the test runner: scheduler, teardown, session
      suites, instrumentation and option processing

    A shallow embedding of [src/lib/executors/Node.ts].  Each part of the
    executor is a module named after the class, method or hook it embeds;
    the collaborators the executor only calls (the Task library, the
    instrumenter, the tunnel, the option parser) appear as small models or
    as section variables, each introduced where it is used. *)

From Stdlib Require Import ZArith Lia Ascii.
From stdpp Require Import gmap strings list.

Set Default Proof Using "Type".
Open Scope Z_scope.
Open Scope nat_scope.

(** ** The Task library's states

    [State] is the enumeration the source imports next to [Task]
    ([testTask.state === State.Pending]). *)
Module Task.

Inductive State : Set := Fulfilled | Pending | Rejected | Canceled.

#[global] Instance State_eq_dec : EqDecision State.
Proof. solve_decision. Defined.

(** A promise settles once: resolving or rejecting a task that is no longer
    pending (settled before, or canceled) changes nothing. *)
Definition settle (ok : bool) (s : State) : State :=
  match s with
  | Pending => if ok then Fulfilled else Rejected
  | _ => s
  end.

(** [cancel()] acts on a pending task only. *)
Definition cancel (s : State) : State :=
  match s with
  | Pending => Canceled
  | _ => s
  end.

End Task.

(** ** class FunctionQueue

    The FIFO function queue that bounds the number of running asynchronous
    functions.  The queue object holds [maxConcurrency], [queue],
    [activeTasks] and [funcTasks]; the tasks themselves live in a store next
    to it, because they outlive [clear()]:

    - [handles] holds the state of every [funcTask] made by [enqueue], by
      index; a queue entry's [resolve]/[reject] pair is the index of the
      handle it settles;
    - [tasks] holds every [task] made by [next], by index: the entry it
      runs, the state of the job's own task [func()], and the state of the
      chained task [func().then(resolve, reject).finally(...)] that is
      pushed on [activeTasks];
    - [enqueued] logs the functions passed to [enqueue], in call order. *)
Module FunctionQueue.

Import Task.

(** A job producer [func : () => Task<any>], named by a number.  Calling
    it returns a task that is pending until the job settles. *)
Definition Job := nat.

(** [maxConcurrency] is a JavaScript number; the executor passes
    [config.maxConcurrency || Infinity]. *)
Inductive Concurrency : Set :=
  | Finite (n : Z)
  | Infinity.

(** [length < maxConcurrency] *)
Definition below (len : nat) (m : Concurrency) : bool :=
  match m with
  | Finite n => (Z.of_nat len <? n)%Z
  | Infinity => true
  end.

Record QueueEntry : Set := {
  func : Job;
  handle : nat
}.

Record ActiveTask : Set := {
  entry : QueueEntry;
  job : State;
  chain : State
}.

Record t : Set := {
  maxConcurrency : Concurrency;
  queue : list QueueEntry;
  activeTasks : list nat;
  funcTasks : list nat;
  handles : list State;
  tasks : list ActiveTask;
  enqueued : list Job
}.

Definition new (m : Concurrency) : t :=
  {| maxConcurrency := m; queue := []; activeTasks := []; funcTasks := [];
     handles := []; tasks := []; enqueued := [] |}.

(** The functions called so far, in call order: entry [k] of [tasks] was
    made by the [k]-th call of a queued function. *)
Definition started (q : t) : list Job := map (fun a => func (entry a)) (tasks q).

(** The started jobs whose own task is still pending. *)
Definition running (q : t) : list nat :=
  filter (fun i => job <$> tasks q !! i = Some Pending) (seq 0 (length (tasks q))).

(** Modelled from the spec: [pullFromArray] of [common/util] is not among
    the sources; the spec has the settled job removed from the active set,
    so every occurrence of [needle] leaves [haystack]. *)
Fixpoint pullFromArray (haystack : list nat) (needle : nat) : list nat :=
  match haystack with
  | [] => []
  | x :: rest =>
      if decide (x = needle) then pullFromArray rest needle
      else x :: pullFromArray rest needle
  end.

(** [next()]: shift the first entry off the queue, call its function and
    push the chained task on [activeTasks]. *)
Definition next (q : t) : t :=
  match queue q with
  | [] => q
  | e :: rest =>
      let task := length (tasks q) in
      {| maxConcurrency := maxConcurrency q;
         queue := rest;
         activeTasks := activeTasks q ++ [task];
         funcTasks := funcTasks q;
         handles := handles q;
         tasks := tasks q ++ [{| entry := e; job := Pending; chain := Pending |}];
         enqueued := enqueued q |}
  end.

(** [enqueue(func)]: the executor of the new [funcTask] runs at once and
    pushes the entry; then [next()] is called when fewer than
    [maxConcurrency] tasks are active.  The handle returned is the first
    component. *)
Definition enqueue (f : Job) (q : t) : nat * t :=
  let funcTask := length (handles q) in
  let q1 :=
    {| maxConcurrency := maxConcurrency q;
       queue := queue q ++ [{| func := f; handle := funcTask |}];
       activeTasks := activeTasks q;
       funcTasks := funcTasks q ++ [funcTask];
       handles := handles q ++ [Pending];
       tasks := tasks q;
       enqueued := enqueued q ++ [f] |} in
  (funcTask, if below (length (activeTasks q1)) (maxConcurrency q1) then next q1 else q1).

(** The callback given to [finally] in [next()]:
    [pullFromArray(this.activeTasks, task); this.next()]. *)
Definition onFinally (task : nat) (q : t) : t :=
  next {| maxConcurrency := maxConcurrency q;
          queue := queue q;
          activeTasks := pullFromArray (activeTasks q) task;
          funcTasks := funcTasks q;
          handles := handles q;
          tasks := tasks q;
          enqueued := enqueued q |}.

Definition setTask (task : nat) (a : ActiveTask) (q : t) : t :=
  {| maxConcurrency := maxConcurrency q;
     queue := queue q;
     activeTasks := activeTasks q;
     funcTasks := funcTasks q;
     handles := handles q;
     tasks := <[task := a]> (tasks q);
     enqueued := enqueued q |}.

Definition setHandle (h : nat) (s : State) (q : t) : t :=
  {| maxConcurrency := maxConcurrency q;
     queue := queue q;
     activeTasks := activeTasks q;
     funcTasks := funcTasks q;
     handles := <[h := s]> (handles q);
     tasks := tasks q;
     enqueued := enqueued q |}.

Definition handleState (h : nat) (q : t) : State :=
  default Pending (handles q !! h).

(** The job's own task settles, and [.then(resolve, reject)] passes the
    outcome to the entry's handle.  Nothing happens for a task that was not
    made or whose job is not pending.  The two turns are taken as one here;
    [Turns] has them apart. *)
Definition jobSettles (task : nat) (ok : bool) (q : t) : t :=
  match tasks q !! task with
  | Some a =>
      match job a with
      | Pending =>
          let h := handle (entry a) in
          setHandle h (settle ok (handleState h q))
            (setTask task {| entry := entry a; job := settle ok Pending; chain := chain a |} q)
      | _ => q
      end
  | None => q
  end.

(** The chained task's [finally] callback runs, a turn after the job has
    settled. *)
Definition finallyRuns (task : nat) (q : t) : t :=
  match tasks q !! task with
  | Some a =>
      match job a, chain a with
      | (Fulfilled | Rejected), Pending =>
          onFinally task
            (setTask task {| entry := entry a; job := job a; chain := Fulfilled |} q)
      | _, _ => q
      end
  | None => q
  end.

(** [task.cancel()] on a chained task.  [Task] is the library class the
    source imports; its [cancel()] acts on a pending task only, passes the
    cancelation up to the job's task when that is still pending and down
    again through the chain, marking each task [Canceled]; and a task made
    by [finally] keeps its callback so that it also runs on cancelation: it
    is called at once, inside [cancel()], when no task above it has a
    [finally] callback of its own that returns a promise (so for every job
    that is a plain task, the case modelled here).  A canceled task runs
    none of its [then] callbacks later.  The executor counts on [finally]
    running on cancelation for its own clean-up ([_runTests],
    [_loadFunctionalSuites], [_afterRun]). *)
Definition cancelTask (task : nat) (q : t) : t :=
  match tasks q !! task with
  | Some a =>
      match chain a with
      | Pending =>
          onFinally task
            (setTask task {| entry := entry a; job := cancel (job a); chain := Canceled |} q)
      | _ => q
      end
  | None => q
  end.

(** [funcTask.cancel()] on a handle: it has no canceler and no [finally]. *)
Definition cancelHandle (h : nat) (q : t) : t :=
  match handles q !! h with
  | Some s => setHandle h (cancel s) q
  | None => q
  end.

(** [this.activeTasks.forEach(task => task.cancel())].  [forEach] fixes the
    number of indices [n] before the first call and reads the element at
    each index [k] when it gets there, skipping an index the array no longer
    has; the callbacks run by [cancel()] change the array meanwhile. *)
Fixpoint forEachActive (k n : nat) (q : t) : t :=
  match n with
  | 0 => q
  | S n' =>
      forEachActive (S k) n'
        match activeTasks q !! k with
        | Some task => cancelTask task q
        | None => q
        end
  end.

(** [clear()] *)
Definition clear (q : t) : t :=
  let q1 := forEachActive 0 (length (activeTasks q)) q in
  let q2 := foldl (fun acc h => cancelHandle h acc) q1 (funcTasks q1) in
  {| maxConcurrency := maxConcurrency q2;
     queue := [];
     activeTasks := [];
     funcTasks := [];
     handles := handles q2;
     tasks := tasks q2;
     enqueued := enqueued q2 |}.

(** What can happen to a queue between calls of [clear()]. *)
Inductive Event : Set :=
  | Enqueue (f : Job)
  | JobSettles (task : nat) (ok : bool)
  | FinallyRuns (task : nat).

Definition step (q : t) (e : Event) : t :=
  match e with
  | Enqueue f => snd (enqueue f q)
  | JobSettles task ok => jobSettles task ok q
  | FinallyRuns task => finallyRuns task q
  end.

Definition run (es : list Event) (q : t) : t := foldl step q es.

(** Two histories used as examples: a queue of concurrency 2 with five
    functions enqueued and nothing settled, and one with a failure and
    a late arrival. *)
Definition fiveEnqueued : t :=
  run [Enqueue 10; Enqueue 11; Enqueue 12; Enqueue 13; Enqueue 14] (new (Finite 2)).

Definition mixedHistory : list Event :=
  [Enqueue 10; Enqueue 11; Enqueue 12; JobSettles 1 false; FinallyRuns 1; Enqueue 13].

(** A sensible bound: a count of tasks, or no bound at all. *)
Definition sensible (m : Concurrency) : Prop :=
  match m with
  | Finite n => (0 <= n)%Z
  | Infinity => True
  end.

(** No more than [maxConcurrency] entries in a list of tasks. *)
Definition within (m : Concurrency) (l : list nat) : Prop :=
  match m with
  | Finite n => (Z.of_nat (length l) <= n)%Z
  | Infinity => True
  end.

(** What holds of a queue between calls of [clear()]: the functions not yet
    called wait in the order they came; a pending chained task is on
    [activeTasks]; a running job has a pending chained task; the active
    tasks respect the bound. *)
Record Inv (q : t) : Prop := {
  inv_fifo : enqueued q = started q ++ map func (queue q);
  inv_active : forall i a, tasks q !! i = Some a -> chain a = Pending -> i ∈ activeTasks q;
  inv_job : forall i a, tasks q !! i = Some a -> job a = Pending -> chain a = Pending;
  inv_bound : within (maxConcurrency q) (activeTasks q)
}.

End FunctionQueue.


(** ** Node#_afterRun

    [super._afterRun().finally(() => { ... })]: the callback removes the
    instrumentation hooks, calls [stop()] on the server and on the tunnel
    when they exist, and returns
    [Promise.all(promises).then(() => {}, error => this.emit('error', error))].

    The two [stop()] promises settle when the resources see fit; the order
    in which they settle is an input of the model.  So is [this.emit], which
    belongs to the base executor: it returns a promise, and what that
    promise does is an input too. *)
Module AfterRun.

Definition Error := string.

Inductive Resource : Set := Server | Tunnel.

(** [stop()] resolves ([None]) or rejects with an error. *)
Definition StopResult := option Error.

Inductive Payload : Set :=
  | OfResource (r : Resource)
  | OfError (e : Error).

(** What the callback does and causes, in order of occurrence. [Emit] is
    a call of [this.emit]; [Settled] is the moment the promise returned by
    the callback settles. *)
Inductive Action : Set :=
  | RemoveInstrumentationHooks
  | Stop (r : Resource)
  | Emit (eventName : string) (data : Payload)
  | Settled.

#[global] Instance Resource_eq_dec : EqDecision Resource.
Proof. solve_decision. Defined.
#[global] Instance Payload_eq_dec : EqDecision Payload.
Proof. solve_decision. Defined.
#[global] Instance Action_eq_dec : EqDecision Action.
Proof. solve_decision. Defined.

(** [emit('serverEnd', this.server)], [emit('tunnelStop', { tunnel })] *)
Definition stopEvent (r : Resource) : string :=
  match r with
  | Server => "serverEnd"
  | Tunnel => "tunnelStop"
  end.

(** [this.emit(eventName, data)]: the promise it returns resolves
    ([None]) or rejects with an error.  It is taken to settle before the
    next [stop()] promise does. *)
Definition Emitter := string -> Payload -> option Error.

(** How a task ends. *)
Inductive Outcome : Set :=
  | Fulfilled
  | Rejected (e : Error)
  | Canceled.

(** [task.finally(callback)]: the callback runs however the task ends, and
    the task's outcome is kept unless the promise the callback returns
    rejects. *)
Definition finally_ (task callback : Outcome) : Outcome :=
  match callback with
  | Rejected e => Rejected e
  | _ => task
  end.

(** The promises pushed by the callback, in push order. *)
Definition promises (server tunnel : option StopResult) : list (Resource * StopResult) :=
  match server with Some r => [(Server, r)] | None => [] end ++
  match tunnel with Some r => [(Tunnel, r)] | None => [] end.

(** How a pushed promise, [stop().then(() => this.emit(...))], ends: it
    rejects when [stop()] does, and otherwise as the promise of [emit]
    does. *)
Definition rejection (emit : Emitter) (p : Resource * StopResult) : option Error :=
  match snd p with
  | Some e => Some e
  | None => emit (stopEvent (fst p)) (OfResource (fst p))
  end.

(** The reactions to the settling [stop()] promises, in arrival order.
    A resolved [stop()] runs its [.then(() => this.emit(...))]; [Promise.all]
    fulfils when its last entry has, and rejects with the first rejection to
    arrive, once: [pending] counts the entries not yet fulfilled and [settled]
    tells that [Promise.all] has settled.  Its handlers are [() => {}] and
    [error => this.emit('error', error)]. *)
Fixpoint reactions (emit : Emitter) (pending : nat) (settled : bool)
    (arrivals : list (Resource * StopResult)) : list Action :=
  match arrivals with
  | [] => []
  | (r, None) :: rest =>
      Emit (stopEvent r) (OfResource r)
        :: match emit (stopEvent r) (OfResource r) with
           | None =>
               (if negb settled && (pending =? 1) then [Settled] else [])
                 ++ reactions emit (pending - 1) (settled || (pending =? 1)) rest
           | Some e =>
               (if settled then [] else [Emit "error" (OfError e); Settled])
                 ++ reactions emit pending true rest
           end
  | (r, Some e) :: rest =>
      (if settled then [] else [Emit "error" (OfError e); Settled])
        ++ reactions emit pending true rest
  end.

(** The order in which the pushed promises settle. *)
Definition arrivals (tunnelFirst : bool) (ps : list (Resource * StopResult)) :
    list (Resource * StopResult) :=
  if tunnelFirst then reverse ps else ps.

(** The callback given to [finally]. *)
Definition teardown (emit : Emitter) (server tunnel : option StopResult)
    (tunnelFirst : bool) : list Action :=
  let ps := promises server tunnel in
  RemoveInstrumentationHooks
    :: map (fun p => Stop (fst p)) ps
    ++ match ps with
       | [] => [Settled]
       | _ :: _ => reactions emit (length ps) false (arrivals tunnelFirst ps)
       end.

(** The promise returned by the callback,
    [Promise.all(promises).then(() => {}, error => this.emit('error', error))]:
    when no pushed promise rejects the first handler returns [undefined];
    otherwise the second handler returns the promise of [emit], for the
    rejection that arrived first, and the callback's promise ends as that
    promise does. *)
Definition teardownOutcome (emit : Emitter) (server tunnel : option StopResult)
    (tunnelFirst : bool) : Outcome :=
  match omap (rejection emit) (arrivals tunnelFirst (promises server tunnel)) with
  | [] => Fulfilled
  | e :: _ =>
      match emit "error" (OfError e) with
      | None => Fulfilled
      | Some e' => Rejected e'
      end
  end.

(** [_afterRun()], given how [super._afterRun()] ends: what happens, and
    how the returned task ends. *)
Definition _afterRun (super : Outcome) (emit : Emitter)
    (server tunnel : option StopResult) (tunnelFirst : bool) : list Action * Outcome :=
  (teardown emit server tunnel tunnelFirst,
   finally_ super (teardownOutcome emit server tunnel tunnelFirst)).







(** The resources whose [stop()] resolved, and the errors of those whose
    [stop()] rejected, of a list of settled promises. *)
Definition resolved (ps : list (Resource * StopResult)) : list Resource :=
  omap (fun p => match snd p with None => Some (fst p) | Some _ => None end) ps.





Definition brokenErrorEmit : Emitter :=
  fun name _ => if String.eqb name "error" then Some "reporter crashed" else None.

End AfterRun.

(** ** The [after] hook of a session suite ([_createSessionSuites])

    A suite, as the hook reads it: its [error], its [numFailedTests] (a
    property of [Suite], whose class is not part of this file's source, so
    it is a field here) and its [tests], which are tests or suites. *)
Module SessionSuite.

Inductive Suite : Set :=
  | mkSuite (error : option string) (numFailedTests : nat) (tests : list SuiteOrTest)
with SuiteOrTest : Set :=
  | ATest (name : string)
  | ASuite (suite : Suite).

Definition error (s : Suite) : option string :=
  match s with mkSuite e _ _ => e end.
Definition numFailedTests (s : Suite) : nat :=
  match s with mkSuite _ n _ => n end.
Definition tests (s : Suite) : list SuiteOrTest :=
  match s with mkSuite _ _ ts => ts end.

Definition isSuite (x : SuiteOrTest) : bool :=
  match x with
  | ASuite _ => true
  | ATest _ => false
  end.

(** [hasError]: [suite.error != null || suite.numFailedTests > 0], or else
    [suite.tests.filter(isSuite).some(hasError)]. *)
Fixpoint hasError (suite : Suite) : bool :=
  match suite with
  | mkSuite err failed ts =>
      if bool_decide (err <> None) || (0 <? failed) then true
      else
        (fix some (l : list SuiteOrTest) : bool :=
           match l with
           | [] => false
           | ATest _ :: rest => some rest
           | ASuite s :: rest => hasError s || some rest
           end) ts
  end.

(** [suite.tests.filter(isSuite).some(hasError)], as the source writes
    it; [hasError] above unfolds the two list functions so that its
    recursion is structural. *)
Definition someSuiteHasError (ts : list SuiteOrTest) : bool :=
  existsb (fun x => match x with ASuite s => hasError s | ATest _ => false end)
    (List.filter isSuite ts).

(** The suites of a suite's tree: itself and the suites below it. *)
Fixpoint subtree (suite : Suite) : list Suite :=
  match suite with
  | mkSuite _ _ ts =>
      suite ::
        (fix below (l : list SuiteOrTest) : list Suite :=
           match l with
           | [] => []
           | ATest _ :: rest => below rest
           | ASuite s :: rest => subtree s ++ below rest
           end) ts
  end.

(** A suite's tree is erroneous when some suite in it has an error of its
    own or a failed test. *)
Definition erroneous (suite : Suite) : Prop :=
  exists s, s ∈ subtree suite /\ (error s <> None \/ 0 < numFailedTests s).

(** [config.leaveRemoteOpen : boolean | 'fail'] *)
Inductive LeaveRemoteOpen : Set :=
  | LeaveOpen (b : bool)
  | LeaveOpenOnFail.

(** The remote handle of a suite: what the hook needs is
    [remote.session.sessionId]. *)
Record Remote : Set := { sessionId : string }.

(** The calls the hook makes on its collaborators. *)
Inductive Call : Set :=
  | Quit (session : string)
  | SendJobState (session : string) (success : bool).

#[global] Instance Call_eq_dec : EqDecision Call.
Proof. solve_decision. Defined.

(** [endSession]: [tunnel.sendJobState(remote.session.sessionId,
    { success: !hasError(this) })] *)
Definition endSession (remote : Remote) (this : Suite) : list Call :=
  [SendJobState (sessionId remote) (negb (hasError this))].

(** The test of the hook that keeps the remote open. *)
Definition leftOpen (leaveRemoteOpen : LeaveRemoteOpen) (this : Suite) : bool :=
  match leaveRemoteOpen with
  | LeaveOpen b => b
  | LeaveOpenOnFail => 0 <? numFailedTests this
  end.

(** [remote.quit()]: the call made, and whether it resolves. *)
Definition quit (remote : Remote) (resolves : bool) : list Call * bool :=
  ([Quit (sessionId remote)], resolves).

(** [task.finally(callback)]: the callback runs when the task has ended,
    resolved or rejected. *)
Definition finally_ (task : list Call * bool) (callback : list Call) : list Call :=
  fst task ++ (if snd task then callback else callback).

(** [after()], given whether [remote.quit()] resolves: either
    [endSession()] alone, or [remote.quit().finally(endSession)].  Without
    a remote the hook does nothing. *)
Definition after (leaveRemoteOpen : LeaveRemoteOpen) (remote : option Remote)
    (this : Suite) (quitResolves : bool) : list Call :=
  match remote with
  | Some r =>
      if leftOpen leaveRemoteOpen this then endSession r this
      else finally_ (quit r quitResolves) (endSession r this)
  | None => []
  end.

(** The position of the first call that satisfies a test. *)
Fixpoint firstIndex (p : Call -> bool) (l : list Call) : option nat :=
  match l with
  | [] => None
  | c :: rest => if p c then Some 0 else S <$> firstIndex p rest
  end.

Definition isQuit (c : Call) : bool :=
  match c with Quit _ => true | _ => false end.
Definition isReport (c : Call) : bool :=
  match c with SendJobState _ _ => true | _ => false end.

(** Two session suites used as examples: one whose only test passed, and
    one whose nested suite ran its only test, which passed, and then failed
    in its [after] hook: an error is recorded on the nested suite and no
    test counts as failed, in the nested suite or in the session suite. *)
Definition passing : Suite := mkSuite None 0 [ATest "loads the page"].

Definition brokenTeardown : Suite :=
  mkSuite None 0 [ASuite (mkSuite (Some "after hook failed") 0 [ATest "loads the page"])].

Definition session1 : Remote := {| sessionId := "session-1" |}.

End SessionSuite.

(** ** Node#_beforeRun

    The part of the configuration the method reads, and next to it
    [node.suites], which [_resolveConfig] expands with the other suite lists
    and [_beforeRun] does not read. *)
Module BeforeRun.

Record Config : Set := {
  environments : list string;
  functionalSuites : list string;
  suites : list string;
  browser_suites : list string;
  node_suites : list string;
  serveOnly : bool
}.

(** The stages [_beforeRun] can enter, in the order of the source. *)
Inductive Stage : Set :=
  | ServerStart
  | AwaitInterrupt
  | TunnelCreate
  | CreateSessionSuites
  | TunnelStart.

#[global] Instance Stage_eq_dec : EqDecision Stage.
Proof. solve_decision. Defined.

(** How the collaborators answer: whether [server.start()] and
    [_createSessionSuites()] resolve. *)
Record Answers : Set := {
  serverStarts : bool;
  sessionSuitesBuilt : bool
}.

(** The test that guards the server task. *)
Definition engaged (config : Config) : bool :=
  (0 <? length (environments config))
    && (0 <? length (functionalSuites config) + length (suites config)
               + length (browser_suites config))
  || serveOnly config.

(** The stages entered.  A stage that rejects ends the chain. *)
Definition _beforeRun (config : Config) (w : Answers) : list Stage :=
  if engaged config then
    ServerStart ::
      if serverStarts w then
        if serveOnly config then [AwaitInterrupt]
        else
          TunnelCreate :: CreateSessionSuites ::
            if sessionSuitesBuilt w then [TunnelStart] else []
      else []
  else [].

(** At least one suite is declared in one of three lists. *)
Definition declared (a b c : list string) : Prop :=
  a <> [] \/ b <> [] \/ c <> [].

(** Two configurations used as examples: one environment and suites for
    Node only; and serve-only mode with an environment and a suite. *)
Definition nodeOnly : Config :=
  {| environments := ["chrome"]; functionalSuites := []; suites := [];
     browser_suites := []; node_suites := ["tests/unit/all.js"]; serveOnly := false |}.

Definition serving : Config :=
  {| environments := ["chrome"]; functionalSuites := []; suites := ["tests/unit/all.js"];
     browser_suites := []; node_suites := []; serveOnly := true |}.

Definition allResolve : Answers := {| serverStarts := true; sessionSuitesBuilt := true |}.

End BeforeRun.

(** ** Node#instrumentCode

    The executor's stores and its event log; the instrumenter, the source
    map reader and [path.normalize] are the section's variables.  A coverage
    map is keyed by the path recorded in each file coverage, and adding a
    file coverage merges it into the record already there. *)
Module InstrumentCode.

Section Instrumenter.

Variable SourceMap : Type.
Variable FileCoverage : Type.

(** The path a file coverage was recorded for, and the merge of two
    records of one file. *)
Variable path : FileCoverage -> string.
Variable merge : FileCoverage -> FileCoverage -> FileCoverage.

(** [instrumentSync] returns the new code and leaves the file coverage and
    the source map to be read with [lastFileCoverage()] and
    [lastSourceMap()], or throws an error with a message. *)
Record Instrumented : Type := {
  newCode : string;
  lastFileCoverage : FileCoverage;
  lastSourceMap : SourceMap
}.

Variable instrumentSync : string -> string -> option SourceMap -> Instrumented + string.
Variable readSourceMap : string -> string -> option SourceMap.
Variable normalize : string -> string.

Record Executor : Type := {
  _coverageMap : gmap string FileCoverage;
  _sourceMaps : gmap string SourceMap;
  _instrumentedMaps : gmap string SourceMap;
  emitted : list (string * string)
}.

(** [CoverageMap#addFileCoverage] *)
Definition addFileCoverage (fc : FileCoverage) (m : gmap string FileCoverage) :
    gmap string FileCoverage :=
  match m !! path fc with
  | Some old => <[path fc := merge old fc]> m
  | None => <[path fc := fc]> m
  end.

(** [MapStore#registerMap] *)
Definition registerMap (filename : string) (sm : SourceMap) (s : gmap string SourceMap) :
    gmap string SourceMap :=
  <[filename := sm]> s.

Definition instrumentCode (code filename : string) (this : Executor) : string * Executor :=
  let sourceMap := readSourceMap filename code in
  let sourceMaps :=
    match sourceMap with
    | Some sm => registerMap filename sm (_sourceMaps this)
    | None => _sourceMaps this
    end in
  match instrumentSync code (normalize filename) sourceMap with
  | inl r =>
      (newCode r,
       {| _coverageMap := addFileCoverage (lastFileCoverage r) (_coverageMap this);
          _sourceMaps := sourceMaps;
          _instrumentedMaps := registerMap filename (lastSourceMap r) (_instrumentedMaps this);
          emitted := emitted this |})
  | inr message =>
      (code,
       {| _coverageMap := _coverageMap this;
          _sourceMaps := sourceMaps;
          _instrumentedMaps := _instrumentedMaps this;
          emitted := emitted this
            ++ [("warning", "Error instrumenting " +:+ filename +:+ ": " +:+ message)] |})
  end.

End Instrumenter.

Arguments newCode {SourceMap FileCoverage}.
Arguments lastFileCoverage {SourceMap FileCoverage}.
Arguments lastSourceMap {SourceMap FileCoverage}.
Arguments _coverageMap {SourceMap FileCoverage}.
Arguments _sourceMaps {SourceMap FileCoverage}.
Arguments _instrumentedMaps {SourceMap FileCoverage}.
Arguments emitted {SourceMap FileCoverage}.
Arguments addFileCoverage {FileCoverage}.
Arguments registerMap {SourceMap}.
Arguments instrumentCode {SourceMap FileCoverage}.

(** [needle] occurs in [hay]. *)
Definition contains (needle hay : string) : Prop :=
  exists before after, hay = before +:+ needle +:+ after.

End InstrumentCode.

(** ** The process-wide handlers installed by the constructor

    Errors are objects: the handlers receive a reference, write the
    [message] property through it, and emit the same reference.  [errors]
    is the store of error objects, by reference.  The statements of a
    handler run in order, and [emit] hands the object to the listeners when
    it is called: [heard] records the message the object had at that
    moment, which is what a listener reads. *)
Module Uncaught.

Definition Ref := nat.

(** What [console.warn] was called with: the label, and the message the
    printed object had at the time of the call ([None] for the promise of a
    rejection, which is not an error object). *)
Record Warning : Set := {
  label : string;
  shown : option string
}.

Record Executor : Set := {
  _listeners : gmap string (list nat);
  errors : gmap Ref string;
  emitted : list (string * Ref);
  heard : list (Ref * option string);
  console : list Warning
}.

(** [!this._listeners['error'] || this._listeners['error'].length === 0] *)
Definition noErrorListener (this : Executor) : bool :=
  match _listeners this !! "error" with
  | None => true
  | Some l => length l =? 0
  end.

Definition warn (w : Warning) (this : Executor) : Executor :=
  {| _listeners := _listeners this; errors := errors this;
     emitted := emitted this; heard := heard this;
     console := console this ++ [w] |}.

(** [reason.message = prefix + reason.message] *)
Definition relabel (prefix : string) (reason : Ref) (this : Executor) : Executor :=
  {| _listeners := _listeners this;
     errors := alter (fun message => prefix +:+ message) reason (errors this);
     emitted := emitted this; heard := heard this; console := console this |}.

(** [this.emit('error', reason)]: the event is emitted with the object as
    it is when [emit] is called. *)
Definition emitError (reason : Ref) (this : Executor) : Executor :=
  {| _listeners := _listeners this; errors := errors this;
     emitted := emitted this ++ [("error", reason)];
     heard := heard this ++ [(reason, errors this !! reason)];
     console := console this |}.

(** [process.on('unhandledRejection', (reason, promise) => ...)] *)
Definition unhandledRejection (reason : Ref) (this : Executor) : Executor :=
  let this1 :=
    if noErrorListener this
    then warn {| label := "Unhandled rejection:"; shown := None |} this
    else this in
  emitError reason (relabel "Unhandled rejection: " reason this1).

(** [process.on('uncaughtException', reason => ...)] *)
Definition uncaughtException (reason : Ref) (this : Executor) : Executor :=
  let this1 :=
    if noErrorListener this
    then warn {| label := "Unhandled error:"; shown := errors this !! reason |} this
    else this in
  emitError reason (relabel "Uncaught exception: " reason this1).

(** The message the error object holds once the handler has returned. *)
Definition messageOf (reason : Ref) (this : Executor) : option string :=
  errors this !! reason.

(** An executor used as an example: no listener, one error object. *)
Definition quiet : Executor :=
  {| _listeners := ∅; errors := {[ 7 := "socket closed" ]}; emitted := [];
     heard := []; console := [] |}.

End Uncaught.

(** ** Node#_processOption, case ['coverage']

    [parseValue] of [common/util] is not part of this file's source: it is
    the section's variable, and its result has the type the source declares
    for it, [let parsed: boolean | string[]]. *)
Module ProcessOption.

(** A configuration value as it arrives. *)
#[warnings="-register-all"]
Inductive Value : Set :=
  | VUndefined
  | VBoolean (b : bool)
  | VNumber (n : Z)
  | VString (s : string)
  | VArray (l : list Value).

(** The parser names used by the case: ['boolean'] and ['string[]']. *)
Inductive TypeName : Set := boolean | string_array.

(** [boolean | string[]] *)
Inductive Parsed : Set :=
  | PBoolean (b : bool)
  | PStrings (l : list string).

Record Config : Set := {
  coverage : Parsed
}.

(** The default set by the constructor: [coverage: []]. *)
Definition defaults : Config := {| coverage := PStrings [] |}.

(** [_setOption(name, parsed)] for [name = 'coverage']. *)
Definition _setOption (parsed : Parsed) (config : Config) : Config :=
  {| coverage := parsed |}.

Section Parser.

(** [parseValue(name, value, parser)]: the parsed value, or the message of
    the error thrown. *)
Variable parseValue : string -> Value -> TypeName -> Parsed + string.

(** The [try]/[catch] that tries the boolean parser first. *)
Definition parse (name : string) (value : Value) : Parsed + string :=
  match parseValue name value boolean with
  | inl parsed => inl parsed
  | inr _ => parseValue name value string_array
  end.

(** The case: the configuration afterwards, and the message of the error
    thrown, if any.  [typeof parsed === 'boolean' && parsed !== false]
    throws; any throw leaves the configuration as it was. *)
Definition _processOption (value : Value) (config : Config) : Config * option string :=
  match parse "coverage" value with
  | inl (PBoolean true) => (config, Some "Non-false boolean for 'coverage'")
  | inl parsed => (_setOption parsed config, None)
  | inr message => (config, Some message)
  end.

End Parser.

(** What the declared type [false | string[]] of the option allows. *)
Definition allowed (p : Parsed) : Prop :=
  p = PBoolean false \/ exists l, p = PStrings l.

(** A parser that reads a boolean as itself. *)
Definition readsBooleans (parseValue : string -> Value -> TypeName -> Parsed + string) : Prop :=
  forall name b, parseValue name (VBoolean b) boolean = inl (PBoolean b).

(** A sample parser: as ['boolean'] it reads booleans and the words for
    them; as ['string[]'] it reads a string or an array of strings. *)
Fixpoint strings (l : list Value) : option (list string) :=
  match l with
  | [] => Some []
  | VString s :: rest => cons s <$> strings rest
  | _ :: _ => None
  end.

Definition sampleParser (name : string) (value : Value) (parser : TypeName) : Parsed + string :=
  match parser, value with
  | boolean, VBoolean b => inl (PBoolean b)
  | boolean, VString "true" => inl (PBoolean true)
  | boolean, VString "false" => inl (PBoolean false)
  | boolean, _ => inr ("Non-boolean value for " +:+ name)
  | string_array, VUndefined => inl (PStrings [])
  | string_array, VString s => inl (PStrings [s])
  | string_array, VArray l =>
      match strings l with
      | Some ss => inl (PStrings ss)
      | None => inr ("Non-string[] value for " +:+ name)
      end
  | string_array, _ => inr ("Non-string[] value for " +:+ name)
  end.

End ProcessOption.

(** ** Node#_runRemoteTests and the queue it drives

    [new FunctionQueue(config.maxConcurrency || Infinity)], then one
    [queue.enqueue(() => suite.run())] per session suite, in the order of
    [_sessionSuites]; the canceler of the run task is [queue.clear()].
    Session suites are named by numbers, as the queue's jobs are. *)
Module RunRemoteTests.

Import Task FunctionQueue.

(** [config.maxConcurrency || Infinity]: zero is falsy. *)
Definition limit (maxConcurrency : Concurrency) : Concurrency :=
  match maxConcurrency with
  | Finite 0 => Infinity
  | m => m
  end.

(** [sessionSuites.map(suite => queue.enqueue(...))] *)
Definition enqueueAll (sessionSuites : list Job) (q : t) : t :=
  foldl (fun acc suite => snd (enqueue suite acc)) q sessionSuites.

(** The queue when [_runRemoteTests] has enqueued every suite. *)
Definition _runRemoteTests (maxConcurrency : Concurrency) (sessionSuites : list Job) : t :=
  enqueueAll sessionSuites (new (limit maxConcurrency)).

(** How many of [n] functions a queue that is new starts at once. *)
Definition capacity (m : Concurrency) (n : nat) : nat :=
  match m with
  | Finite k => Z.to_nat k `min` n
  | Infinity => n
  end.

(** Between calls of [clear()] the active tasks are distinct and
    unfinished, and an entry waits only when the test of [enqueue] fails. *)
Record Busy (q : t) : Prop := {
  busy_distinct : NoDup (activeTasks q);
  busy_pending : forall i, i ∈ activeTasks q ->
    exists a, tasks q !! i = Some a /\ chain a = Pending;
  busy_full : queue q <> [] -> below (length (activeTasks q)) (maxConcurrency q) = false
}.

(** Between calls of [clear()] every handle belongs to one entry, started
    or waiting; the handle of a started entry is in the state of its job,
    the handle of a waiting entry is pending, and no job is canceled. *)
Record Mirrors (q : t) : Prop := {
  mirrors_ids : map handle (map entry (tasks q) ++ queue q) = seq 0 (length (handles q));
  mirrors_jobs : forall i a, tasks q !! i = Some a ->
    handles q !! handle (entry a) = Some (job a);
  mirrors_queue : forall e, e ∈ queue q -> handles q !! handle e = Some Pending;
  mirrors_live : forall i a, tasks q !! i = Some a -> job a <> Canceled
}.

End RunRemoteTests.

(** ** The queue, turn by turn

    [func().then(resolve, reject).finally(...)]: the job's own task settles
    first; the callback of [then] runs a turn later and passes the outcome
    to the entry's handle; the callback of [finally] runs later still.
    [FunctionQueue.jobSettles] takes the first two turns as one.  Here they
    are two events, and a history may put anything between them.  The
    histories are not ordered further: what holds of all of them holds of
    those the queue can have. *)
Module Turns.

Import Task FunctionQueue.

(** The job's own task, [func()], settles.  Nothing happens for a task that
    was not made or whose job is not pending. *)
Definition jobEnds (task : nat) (ok : bool) (q : t) : t :=
  match tasks q !! task with
  | Some a =>
      match job a with
      | Pending =>
          setTask task {| entry := entry a; job := settle ok Pending; chain := chain a |} q
      | _ => q
      end
  | None => q
  end.

(** The callback of [.then(resolve, reject)] runs: [resolve] for a
    fulfilled job, [reject] for a rejected one, on the entry's handle. *)
Definition handleSettles (task : nat) (q : t) : t :=
  match tasks q !! task with
  | Some a =>
      let h := handle (entry a) in
      match job a with
      | Fulfilled => setHandle h (settle true (handleState h q)) q
      | Rejected => setHandle h (settle false (handleState h q)) q
      | _ => q
      end
  | None => q
  end.

Inductive Turn : Set :=
  | Enqueued (f : Job)
  | JobEnds (task : nat) (ok : bool)
  | HandleSettles (task : nat)
  | FinallyCalled (task : nat).

Definition turn (q : t) (e : Turn) : t :=
  match e with
  | Enqueued f => snd (enqueue f q)
  | JobEnds task ok => jobEnds task ok q
  | HandleSettles task => handleSettles task q
  | FinallyCalled task => finallyRuns task q
  end.

Definition play (ts : list Turn) (q : t) : t := foldl turn q ts.

(** An event of [FunctionQueue], turn by turn. *)
Definition turns (e : Event) : list Turn :=
  match e with
  | Enqueue f => [Enqueued f]
  | JobSettles task ok => [JobEnds task ok; HandleSettles task]
  | FinallyRuns task => [FinallyCalled task]
  end.


(** Between calls of [clear()] every handle belongs to one entry, started
    or waiting; the handle of a started entry is pending or in the state of
    its job, the handle of a waiting entry is pending, and no job is
    canceled. *)
Record Follows (q : t) : Prop := {
  follows_ids : map handle (map entry (tasks q) ++ queue q) = seq 0 (length (handles q));
  follows_jobs : forall i a, tasks q !! i = Some a ->
    exists s, handles q !! handle (entry a) = Some s /\ (s = Pending \/ s = job a);
  follows_queue : forall e, e ∈ queue q -> handles q !! handle e = Some Pending;
  follows_live : forall i a, tasks q !! i = Some a -> job a <> Canceled
}.

End Turns.

(** ** Node#loadScript

    What the method calls: [resolve] is [path.resolve], [existsSync] is
    [fs.existsSync], [nodeResolve] is the synchronous resolver of the
    [resolve] package, which returns a module path or throws, and [require]
    loads a module file or throws ([None] when it loads, the error
    otherwise). *)
Module LoadScript.

Record Modules : Type := {
  resolve : string -> string;
  existsSync : string -> bool;
  nodeResolve : string -> string + string;
  require : string -> option string
}.

(** One turn of the [for] loop: the file handed to [require], if the
    script names one, and the error thrown, if any. *)
Definition loadOne (w : Modules) (script : string) : list string * option string :=
  let file := resolve w script in
  if existsSync w file then ([file], require w file)
  else
    match nodeResolve w script with
    | inl module => ([module], require w module)
    | inr error => ([], Some error)
    end.

(** The loop inside [try]: the files handed to [require], in order, and
    the error caught, if any. *)
Fixpoint loadAll (w : Modules) (scripts : list string) : list string * option string :=
  match scripts with
  | [] => ([], None)
  | script :: rest =>
      match loadOne w script with
      | (required, Some error) => (required, Some error)
      | (required, None) =>
          (required ++ fst (loadAll w rest), snd (loadAll w rest))
      end
  end.

(** [loadScript(script: string | string[])]: the files handed to
    [require], and [None] for [Task.resolve()] or the error of
    [Task.reject(error)]. *)
Definition loadScript (w : Modules) (script : string + list string) :
    list string * option string :=
  loadAll w match script with
            | inl one => [one]
            | inr scripts => scripts
            end.

(** The files handed to [require] for a list of scripts, one after the
    other. *)
Definition filesOf (w : Modules) (scripts : list string) : list string :=
  concat (map (fun s => fst (loadOne w s)) scripts).

(** A script loads. *)
Definition loads (w : Modules) (script : string) : Prop :=
  snd (loadOne w script) = None.

(** A sample: two suite files exist and load, one exists and throws while
    loading, and nothing else can be resolved. *)
Definition sample : Modules :=
  {| resolve := fun script => "/app/" +:+ script;
     existsSync := fun file =>
       bool_decide (file ∈ ["/app/a.js"; "/app/b.js"; "/app/broken.js"]);
     nodeResolve := fun script => inr ("Cannot find module '" +:+ script +:+ "'");
     require := fun file =>
       if bool_decide (file = "/app/broken.js") then Some "SyntaxError" else None |}.

End LoadScript.

(** ** Node#_resolveConfig: the server URL

    [config.serverUrl = config.serverUrl.replace(/\/*$/, '/')].  The
    pattern matches first where everything up to the end of the string is a
    slash, so the match is the whole run of slashes at the end, empty if the
    string does not end in one, and it is replaced by one slash. *)
Module ServerUrl.

(** The string without the run of slashes at its end. *)
Fixpoint trimSlashes (s : string) : string :=
  match s with
  | EmptyString => EmptyString
  | String c rest =>
      match trimSlashes rest with
      | EmptyString => if Ascii.eqb c "/"%char then EmptyString else String c EmptyString
      | trimmed => String c trimmed
      end
  end.

Definition normalizeServerUrl (serverUrl : string) : string :=
  trimSlashes serverUrl +:+ "/".

(** A run of [n] slashes. *)
Fixpoint slashes (n : nat) : string :=
  match n with
  | 0 => EmptyString
  | S k => String "/"%char (slashes k)
  end.

(** The last character of a string is a slash. *)
Fixpoint endsWithSlash (s : string) : bool :=
  match s with
  | EmptyString => false
  | String c EmptyString => Ascii.eqb c "/"%char
  | String _ rest => endsWithSlash rest
  end.

End ServerUrl.

(** ** Node#_runTests: the coverage pass at the end

    The [finally] callback of [_runTests] reads and instruments every file
    of [_coverageFiles] that the coverage map does not list yet, each inside
    its own [try] with an empty [catch].  [readFileSync] returns the code or
    throws ([None]). *)
Module CoveragePass.

Import InstrumentCode.

Section Instrumenter.

Variable SourceMap : Type.
Variable FileCoverage : Type.
Variable path : FileCoverage -> string.
Variable merge : FileCoverage -> FileCoverage -> FileCoverage.
Variable instrumentSync :
  string -> string -> option SourceMap -> Instrumented SourceMap FileCoverage + string.
Variable readSourceMap : string -> string -> option SourceMap.
Variable normalize : string -> string.
Variable readFileSync : string -> option string.

(** [coveredFiles.indexOf(filename) === -1], where [coveredFiles] is
    [this._coverageMap.files()]. *)
Definition uncovered (this : Executor SourceMap FileCoverage) (filename : string) : bool :=
  match _coverageMap this !! filename with
  | Some _ => false
  | None => true
  end.

Definition uncoveredFiles (coverageFiles : list string)
    (this : Executor SourceMap FileCoverage) : list string :=
  List.filter (uncovered this) coverageFiles.

(** The body of [forEach]: a file that cannot be read is passed over. *)
Definition instrumentFile (this : Executor SourceMap FileCoverage) (filename : string) :
    Executor SourceMap FileCoverage :=
  match readFileSync filename with
  | Some code =>
      snd (instrumentCode path merge instrumentSync readSourceMap normalize
             code filename this)
  | None => this
  end.

(** The callback. *)
Definition coveragePass (coverageFiles : list string)
    (this : Executor SourceMap FileCoverage) : Executor SourceMap FileCoverage :=
  foldl instrumentFile this (uncoveredFiles coverageFiles this).

(** A file can be read and instrumented, and its coverage is recorded
    under its own name. *)
Definition instrumentable (filename : string) : Prop :=
  exists code r,
    readFileSync filename = Some code /\
    instrumentSync code (normalize filename) (readSourceMap filename code) = inl r /\
    path (lastFileCoverage r) = filename.

End Instrumenter.

Arguments uncovered {SourceMap FileCoverage}.
Arguments uncoveredFiles {SourceMap FileCoverage}.
Arguments instrumentFile {SourceMap FileCoverage}.
Arguments coveragePass {SourceMap FileCoverage}.
Arguments instrumentable {SourceMap FileCoverage}.

(** A sample instrumenter: a file coverage is a path and a count of hits,
    merged by adding the hits; code that starts with a brace cannot be
    instrumented; one file cannot be read. *)
Definition samplePath (fc : string * nat) : string := fst fc.

Definition sampleMerge (a b : string * nat) : string * nat := (fst a, snd a + snd b).

Definition sampleInstrument (code filename : string) (sm : option string) :
    Instrumented string (string * nat) + string :=
  match code with
  | String "}"%char _ => inr "Unexpected token"
  | _ => inl {| newCode := "cov();" +:+ code;
                lastFileCoverage := (filename, 0);
                lastSourceMap := "map of " +:+ filename |}
  end.

Definition sampleRead (filename : string) : option string :=
  if bool_decide (filename = "/app/missing.js") then None
  else if bool_decide (filename = "/app/broken.js") then Some "} oops"
  else Some "run();".

Definition sampleExecutor : Executor string (string * nat) :=
  {| _coverageMap := {[ "/app/a.js" := ("/app/a.js", 3) ]};
     _sourceMaps := ∅; _instrumentedMaps := ∅; emitted := [] |}.

End CoveragePass.

(** ** Instrumentation hooks and the files they apply to

    [_resolveConfig] computes [_coverageFiles] from [config.coverage], of
    type [false | string[]]; [_loadSuites] sets the hooks when there are
    files; [_afterRun] removes them.  [expandFiles] of [node/util] and
    [path.resolve] are parameters.  The hook library keeps the state that
    the executor cannot see: whether [runInThisContext] is hooked, and the
    [require] hooks that are active, each named by a number; [hookRequire]
    returns the function that removes the hook it has made. *)
Module Hooks.

Record t : Set := {
  _coverageFiles : option (list string);
  _unhookRequire : option nat;
  runInThisContextHooked : bool;
  requireHooks : list nat;
  made : nat
}.

(** The executor as the constructor leaves it. *)
Definition initial : t :=
  {| _coverageFiles := None; _unhookRequire := None;
     runInThisContextHooked := false; requireHooks := []; made := 0 |}.

(** [_resolveConfig]: [this._coverageFiles = []], and the resolved
    expansion of [config.coverage] when that is not [false]. *)
Definition _resolveConfig (expandFiles : list string -> list string)
    (resolve : string -> string) (coverage : option (list string)) (this : t) : t :=
  {| _coverageFiles :=
       Some match coverage with
            | Some patterns => map resolve (expandFiles patterns)
            | None => []
            end;
     _unhookRequire := _unhookRequire this;
     runInThisContextHooked := runInThisContextHooked this;
     requireHooks := requireHooks this;
     made := made this |}.

(** [this._coverageFiles && this._coverageFiles.length > 0] *)
Definition hasCoveredFiles (this : t) : bool :=
  match _coverageFiles this with
  | Some files => 0 <? length files
  | None => false
  end.

(** [this._coverageFiles && this._coverageFiles.indexOf(filename) !== -1] *)
Definition shouldInstrumentFile (filename : string) (this : t) : bool :=
  match _coverageFiles this with
  | Some files => bool_decide (filename ∈ files)
  | None => false
  end.

Definition _setInstrumentationHooks (this : t) : t :=
  {| _coverageFiles := _coverageFiles this;
     _unhookRequire := Some (made this);
     runInThisContextHooked := true;
     requireHooks := requireHooks this ++ [made this];
     made := S (made this) |}.

(** [unhookRunInThisContext()], then the stored function, if any, is
    called and forgotten. *)
Definition _removeInstrumentationHooks (this : t) : t :=
  {| _coverageFiles := _coverageFiles this;
     _unhookRequire := None;
     runInThisContextHooked := false;
     requireHooks :=
       match _unhookRequire this with
       | Some hook => List.filter (fun h => negb (h =? hook)) (requireHooks this)
       | None => requireHooks this
       end;
     made := made this |}.

(** The part of [_loadSuites] that the executor adds. *)
Definition _loadSuites (this : t) : t :=
  if hasCoveredFiles this then _setInstrumentationHooks this else this.

(** No hook is active and none is remembered. *)
Definition hookFree (this : t) : Prop :=
  runInThisContextHooked this = false /\ requireHooks this = [] /\
  _unhookRequire this = None.

End Hooks.

(** ** Node#addSuite, Node#_loadFunctionalSuites and the chain of
       Node#_runTests

    Suite factories and session suites are named by numbers.  [applied]
    logs what [addSuite] has done with the factories it was given: applied
    one to a session suite, or passed it to [super.addSuite], which is not
    part of this file's source.  The loader of functional suites is not
    part of it either: what matters here is which factories the loaded
    files register with [addSuite], and how the loader ends. *)
Module Suites.

Inductive Application : Set :=
  | ToSession (factory suite : nat)
  | ToSuper (factory : nat).

Record t : Set := {
  _loadingFunctionalSuites : bool;
  _sessionSuites : option (list nat);
  applied : list Application
}.

(** [addSuite(factory)]: [this._sessionSuites.forEach(factory)] while
    functional suites load, [super.addSuite(factory)] otherwise.  [None]
    stands for the TypeError of [forEach] on [undefined]. *)
Definition addSuite (factory : nat) (this : t) : option t :=
  if _loadingFunctionalSuites this then
    match _sessionSuites this with
    | Some sessions =>
        Some {| _loadingFunctionalSuites := true;
                _sessionSuites := Some sessions;
                applied := applied this ++ map (ToSession factory) sessions |}
    | None => None
    end
  else
    Some {| _loadingFunctionalSuites := false;
            _sessionSuites := _sessionSuites this;
            applied := applied this ++ [ToSuper factory] |}.

(** How [this._loader(suites)] ends: it returns a promise that resolves or
    one that rejects, or it throws before it returns. *)
Inductive LoaderEnd : Set := Resolves | Rejects | Throws.

Definition setLoading (b : bool) (this : t) : t :=
  {| _loadingFunctionalSuites := b;
     _sessionSuites := _sessionSuites this;
     applied := applied this |}.

(** The calls of [addSuite] made while the loader runs, one per factory
    registered; a call that throws changes nothing. *)
Definition register (factories : list nat) (this : t) : t :=
  foldl (fun acc factory => default acc (addSuite factory acc)) this factories.

(** [_loadFunctionalSuites()]: the flag is set, the loader runs, and the
    [finally] callback that clears the flag is attached to the promise the
    loader returns; a loader that throws returns no promise.  The result
    tells whether the task resolves. *)
Definition _loadFunctionalSuites (factories : list nat) (loader : LoaderEnd) (this : t) :
    t * bool :=
  let loaded := register factories (setLoading true this) in
  match loader with
  | Resolves => (setLoading false loaded, true)
  | Rejects => (setLoading false loaded, false)
  | Throws => (loaded, false)
  end.

(** The chain of [_runTests]: after [super._runTests()], nothing more
    without session suites; with them the functional suites are loaded and
    then, if that resolves, the remote tests run.  The second component
    tells whether [_runRemoteTests] is called. *)
Definition _runTests (superResolves : bool) (factories : list nat) (loader : LoaderEnd)
    (this : t) : t * bool :=
  if superResolves then
    match _sessionSuites this with
    | None => (this, false)
    | Some _ => _loadFunctionalSuites factories loader this
    end
  else (this, false).

(** Every factory applied to every session suite, factory by factory. *)
Definition eachToEach (factories sessions : list nat) : list Application :=
  concat (map (fun factory => map (ToSession factory) sessions) factories).

End Suites.

(** ** Node#_resolveConfig: the options of the instrumenter

    [mixin({}, { coverageVariable: config.coverageVariable,
    ...config.instrumenterOptions }, { preserveComments: true,
    produceSourceMap: true })]: objects are maps from keys to values, a
    spread or a later source of [mixin] replacing the keys it has. *)
Module InstrumenterOptions.

Section Values.

Variable Value : Type.
Variable vtrue : Value.

(** A later object over an earlier one. *)
Definition over (later earlier : gmap string Value) : gmap string Value :=
  later ∪ earlier.

Definition instrumenterConfig (coverageVariable : Value)
    (instrumenterOptions : gmap string Value) : gmap string Value :=
  over {[ "preserveComments" := vtrue; "produceSourceMap" := vtrue ]}
    (over instrumenterOptions {[ "coverageVariable" := coverageVariable ]}).

End Values.

Arguments over {Value}.
Arguments instrumenterConfig {Value}.

End InstrumenterOptions.

(** ** Node#_createSessionSuites: the suites made

    One suite per environment that [resolveEnvironments] returns, in that
    order; a [RemoteSuite] is added to each when
    [config.suites.length + config.browser.suites.length > 0].
    Environments are named by strings. *)
Module CreateSessionSuites.

Import BeforeRun.

Record SessionSuite : Set := {
  name : string;
  hasRemoteSuite : bool
}.

Definition _createSessionSuites (config : Config) (resolved : list string) :
    list SessionSuite :=
  map (fun environmentType =>
         {| name := environmentType;
            hasRemoteSuite := 0 <? length (suites config) + length (browser_suites config) |})
      resolved.

End CreateSessionSuites.

(** * Properties *)

(** ** Properties of the queue between calls of [clear()] *)
Module FunctionQueueFacts.

Import Task FunctionQueue.

Lemma below_true len m : below len m = true -> within m (replicate (S len) 0).
Proof.
  destruct m as [n|]; simpl; [|done].
  rewrite length_replicate. intros H%Z.ltb_lt. lia.
Qed.

Lemma within_length m (l l' : list nat) :
  length l <= length l' -> within m l' -> within m l.
Proof. destruct m; simpl; [lia|done]. Qed.

Lemma pullFromArray_elem (l : list nat) needle x :
  x ∈ pullFromArray l needle <-> x ∈ l /\ x <> needle.
Proof.
  induction l as [|y l IH]; simpl.
  - split; [intros H; inversion H | intros [H _]; inversion H].
  - destruct (decide (y = needle)) as [->|Hne].
    + rewrite IH, elem_of_cons. split.
      * intros [Hx Hn]. split; [by right | done].
      * intros [[Hx|Hx] Hn]; [done | by split].
    + rewrite !elem_of_cons, IH. split.
      * intros [->|[Hx Hn]]; [split; [by left | done] | split; [by right | done]].
      * intros [[->|Hx] Hn]; [by left | by right].
Qed.

Lemma pullFromArray_length (l : list nat) needle :
  length (pullFromArray l needle) <= length l.
Proof.
  induction l as [|y l IH]; simpl; [lia|].
  destruct (decide (y = needle)); simpl; lia.
Qed.

Lemma pullFromArray_shorter (l : list nat) needle :
  needle ∈ l -> length (pullFromArray l needle) < length l.
Proof.
  induction l as [|y l IH]; simpl.
  - intros H; inversion H.
  - intros H. destruct (decide (y = needle)) as [->|Hne]; simpl.
    + pose proof (pullFromArray_length l needle). lia.
    + apply elem_of_cons in H as [->|H]; [done|]. specialize (IH H). lia.
Qed.

Lemma pullFromArray_absent (l : list nat) needle :
  needle ∉ l -> pullFromArray l needle = l.
Proof.
  induction l as [|y l IH]; simpl; [done|].
  intros H. apply not_elem_of_cons in H as [Hne H].
  destruct (decide (y = needle)); [congruence|]. by rewrite IH.
Qed.

(** [next()] either finds the queue empty, or starts its first entry. *)
Lemma next_cases q :
  (queue q = [] /\ next q = q) \/
  (exists e rest, queue q = e :: rest /\
     maxConcurrency (next q) = maxConcurrency q /\
     queue (next q) = rest /\
     activeTasks (next q) = activeTasks q ++ [length (tasks q)] /\
     funcTasks (next q) = funcTasks q /\
     handles (next q) = handles q /\
     tasks (next q) = tasks q ++ [{| entry := e; job := Pending; chain := Pending |}] /\
     enqueued (next q) = enqueued q).
Proof.
  unfold next. destruct (queue q) as [|e rest] eqn:E; [by left|].
  right. exists e, rest. by repeat split.
Qed.

Lemma next_maxConcurrency q : maxConcurrency (next q) = maxConcurrency q.
Proof. destruct (next_cases q) as [[_ ->]|(e & rest & _ & H & _)]; done. Qed.

Lemma next_length_active q :
  length (activeTasks (next q)) <= S (length (activeTasks q)).
Proof.
  destruct (next_cases q) as [[_ ->]|(e & rest & _ & _ & _ & H & _)]; [lia|].
  rewrite H, length_app. simpl. lia.
Qed.

(** [next()] keeps the start order, the task bookkeeping and the job
    states; the bound is its caller's business. *)
Lemma next_keeps q :
  enqueued q = started q ++ map func (queue q) ->
  (forall i a, tasks q !! i = Some a -> chain a = Pending -> i ∈ activeTasks q) ->
  (forall i a, tasks q !! i = Some a -> job a = Pending -> chain a = Pending) ->
  enqueued (next q) = started (next q) ++ map func (queue (next q)) /\
  (forall i a, tasks (next q) !! i = Some a -> chain a = Pending -> i ∈ activeTasks (next q)) /\
  (forall i a, tasks (next q) !! i = Some a -> job a = Pending -> chain a = Pending).
Proof.
  intros Hf Ha Hj.
  destruct (next_cases q) as [[_ ->]|(e & rest & Hq & _ & Hq' & Hact & _ & _ & Ht & He)]; [done|].
  unfold started in *. rewrite Hq', Hact, Ht, He, Hf, Hq.
  repeat split.
  - rewrite map_app. simpl. by rewrite <- app_assoc.
  - intros i a Hi Hc. apply elem_of_app.
    destruct (decide (i < length (tasks q))) as [Hlt|Hge].
    + left. rewrite lookup_app_l in Hi by done. eauto.
    + right. apply lookup_lt_Some in Hi. rewrite length_app in Hi. simpl in Hi.
      replace i with (length (tasks q)) by lia. by apply list_elem_of_singleton.
  - intros i a Hi Hjb.
    destruct (decide (i < length (tasks q))) as [Hlt|Hge].
    + rewrite lookup_app_l in Hi by done. eauto.
    + rewrite lookup_app_r in Hi by lia.
      destruct (i - length (tasks q)) as [|k]; simpl in Hi; [|done].
      by injection Hi as <-.
Qed.

Lemma next_within_below q :
  below (length (activeTasks q)) (maxConcurrency q) = true ->
  within (maxConcurrency (next q)) (activeTasks (next q)).
Proof.
  intros Hb%below_true. rewrite next_maxConcurrency.
  eapply within_length; [|exact Hb].
  rewrite length_replicate. apply next_length_active.
Qed.

(** Replacing a task's record by one for the same entry leaves the start
    order alone. *)
Lemma started_setTask i a a' q :
  tasks q !! i = Some a -> entry a' = entry a -> started (setTask i a' q) = started q.
Proof.
  intros Hi He. unfold started, setTask. simpl.
  change (map ?f ?l) with (f <$> l).
  rewrite list_fmap_insert, He. apply list_insert_id.
  by rewrite list_lookup_fmap, Hi.
Qed.

Lemma new_inv m : sensible m -> Inv (new m).
Proof.
  intros Hm. split; simpl; [done | done | done |].
  destruct m as [n|]; simpl in *; [lia | done].
Qed.

Lemma enqueue_inv f q : Inv q -> Inv (snd (enqueue f q)).
Proof.
  intros [Hf Ha Hj Hb]. unfold enqueue. simpl.
  set (q1 := Build_t _ _ _ _ _ _ _).
  assert (Hf1 : enqueued q1 = started q1 ++ map func (queue q1)).
  { unfold started in *. simpl. rewrite Hf, map_app. simpl. by rewrite <- app_assoc. }
  destruct (below (length (activeTasks q))) eqn:Hbelow.
  - destruct (next_keeps q1 Hf1 Ha Hj) as (Hf' & Ha' & Hj').
    split; try done. by apply next_within_below.
  - by split.
Qed.

Lemma jobSettles_inv task ok q : Inv q -> Inv (jobSettles task ok q).
Proof.
  intros [Hf Ha Hj Hb]. unfold jobSettles.
  destruct (tasks q !! task) as [a|] eqn:Ht; [|by split].
  destruct (job a) eqn:Hjob; try by split.
  split; simpl.
  - change (enqueued q = started (setTask task
      {| entry := entry a; job := settle ok Pending; chain := chain a |} q)
        ++ map func (queue q)).
    by erewrite started_setTask.
  - intros i b Hi Hc. destruct (decide (i = task)) as [->|Hne].
    + rewrite list_lookup_insert_eq in Hi by (by eapply lookup_lt_Some).
      injection Hi as <-. eauto.
    + rewrite list_lookup_insert_ne in Hi by done. eauto.
  - intros i b Hi Hjb. destruct (decide (i = task)) as [->|Hne].
    + rewrite list_lookup_insert_eq in Hi by (by eapply lookup_lt_Some).
      injection Hi as <-. simpl in Hjb. by destruct ok.
    + rewrite list_lookup_insert_ne in Hi by done. eauto.
  - done.
Qed.

(** The [finally] callback, run for a task that is on [activeTasks] and
    whose record has just left the pending state. *)
Lemma onFinally_inv task a a' q :
  Inv q -> tasks q !! task = Some a -> chain a = Pending ->
  entry a' = entry a -> chain a' <> Pending -> job a' <> Pending ->
  Inv (onFinally task (setTask task a' q)).
Proof.
  intros [Hf Ha Hj Hb] Ht Hc He Hc' Hj'. unfold onFinally.
  set (q2 := Build_t _ _ _ _ _ _ _).
  assert (Hlook : forall i b, tasks q2 !! i = Some b ->
            (i = task /\ b = a') \/ (i <> task /\ tasks q !! i = Some b)).
  { intros i b Hi. simpl in Hi. destruct (decide (i = task)) as [->|Hne].
    - rewrite list_lookup_insert_eq in Hi by (by eapply lookup_lt_Some).
      injection Hi as <-. by left.
    - rewrite list_lookup_insert_ne in Hi by done. by right. }
  assert (Hf2 : enqueued q2 = started q2 ++ map func (queue q2)).
  { change (enqueued q = started (setTask task a' q) ++ map func (queue q)).
    by erewrite started_setTask. }
  assert (Ha2 : forall i b, tasks q2 !! i = Some b -> chain b = Pending -> i ∈ activeTasks q2).
  { intros i b Hi Hcb. destruct (Hlook i b Hi) as [[-> ->]|[Hne Hi']]; [done|].
    simpl. apply pullFromArray_elem. eauto. }
  assert (Hj2 : forall i b, tasks q2 !! i = Some b -> job b = Pending -> chain b = Pending).
  { intros i b Hi Hjb. destruct (Hlook i b Hi) as [[-> ->]|[Hne Hi']]; [done|]. eauto. }
  destruct (next_keeps q2 Hf2 Ha2 Hj2) as (Hf' & Ha' & Hjb').
  split; try done.
  rewrite next_maxConcurrency. eapply within_length; [|exact Hb].
  etransitivity; [apply next_length_active|]. simpl.
  apply (pullFromArray_shorter (activeTasks q) task). eauto.
Qed.

Lemma finallyRuns_inv task q : Inv q -> Inv (finallyRuns task q).
Proof.
  intros HI. unfold finallyRuns.
  destruct (tasks q !! task) as [a|] eqn:Ht; [|done].
  destruct (job a) eqn:Hjob, (chain a) eqn:Hc; try done;
    eapply onFinally_inv; eauto; simpl; congruence.
Qed.

Lemma step_inv q e : Inv q -> Inv (step q e).
Proof.
  destruct e; simpl; [apply enqueue_inv | apply jobSettles_inv | apply finallyRuns_inv].
Qed.

Lemma run_inv es q : Inv q -> Inv (run es q).
Proof.
  revert q. induction es as [|e es IH]; intros q HI; simpl; [done|].
  apply IH, step_inv, HI.
Qed.

Lemma step_maxConcurrency q e : maxConcurrency (step q e) = maxConcurrency q.
Proof.
  destruct e as [f|task ok|task]; simpl.
  - destruct (below _ _); [by rewrite next_maxConcurrency|done].
  - unfold jobSettles. destruct (tasks q !! task) as [a|]; [|done].
    by destruct (job a).
  - unfold finallyRuns. destruct (tasks q !! task) as [a|]; [|done].
    destruct (job a), (chain a); try done; unfold onFinally;
      by rewrite next_maxConcurrency.
Qed.

Lemma run_maxConcurrency es q : maxConcurrency (run es q) = maxConcurrency q.
Proof.
  revert q. induction es as [|e es IH]; intros q; simpl; [done|].
  by rewrite IH, step_maxConcurrency.
Qed.

(** Every running job has its task on [activeTasks], so the running jobs
    are no more than the active tasks. *)
Lemma running_le_active q : Inv q -> length (running q) <= length (activeTasks q).
Proof.
  intros [_ Ha Hj _]. apply submseteq_length, NoDup_submseteq.
  - apply NoDup_filter, NoDup_seq.
  - intros i [Hi _]%list_elem_of_filter.
    destruct (tasks q !! i) as [a|] eqn:Ht; [|done].
    simpl in Hi. injection Hi as Hi. eauto.
Qed.

(** C1 — bound and start order.  For every bound [m] that is a count or
    infinite, and every history [es] of calls of [enqueue], settling jobs
    and [finally] callbacks on a new queue (so also at every instant of a
    longer history, each instant being the end of a prefix): the active
    tasks, and the jobs running, are no more than [m]; and the functions
    called so far are, in order, the first functions enqueued, the rest
    waiting in the queue in the order they came: the [k]-th function called
    is the [k]-th function enqueued. *)
Theorem scheduler_bound_and_fifo (m : Concurrency) (es : list Event) :
  sensible m ->
  let q := run es (new m) in
  within m (activeTasks q) /\ within m (running q) /\
  enqueued q = started q ++ map func (queue q) /\
  (forall k f, started q !! k = Some f -> enqueued q !! k = Some f).
Proof.
  intros Hm q.
  assert (HI : Inv q) by (apply run_inv, new_inv, Hm).
  assert (Hmax : maxConcurrency q = m) by apply run_maxConcurrency.
  pose proof (inv_bound q HI) as Hb. rewrite Hmax in Hb.
  split; [exact Hb|]. split.
  - eapply within_length; [apply running_le_active, HI | exact Hb].
  - split; [apply HI|].
    intros k f Hk. rewrite (inv_fifo q HI). by apply lookup_app_l_Some.
Qed.

Lemma scheduler_bound_and_fifo_witness :
  sensible (Finite 2) /\
  within (Finite 2) (activeTasks (run mixedHistory (new (Finite 2)))) /\
  within (Finite 2) (running (run mixedHistory (new (Finite 2)))) /\
  enqueued (run mixedHistory (new (Finite 2)))
    = started (run mixedHistory (new (Finite 2)))
        ++ map func (queue (run mixedHistory (new (Finite 2)))).
Proof.
  assert (Hm : sensible (Finite 2)) by (simpl; lia).
  destruct (scheduler_bound_and_fifo (Finite 2) mixedHistory Hm) as (H1 & H2 & H3 & _).
  split; [exact Hm|]. split; [exact H1|]. split; [exact H2 | exact H3].
Defined.

(** A job is started only by taking the first entry off the queue: a step
    either starts nothing, or starts the function at the head of the
    functions not yet started. *)
Lemma step_starts_head q e :
  Inv q ->
  started (step q e) = started q \/
  exists f, started (step q e) = started q ++ [f] /\
    drop (length (started q)) (enqueued (step q e)) !! 0 = Some f.
Proof.
  intros HI. pose proof (inv_fifo _ (step_inv q e HI)) as Hf.
  pose proof (inv_fifo _ HI) as Hf0.
  assert (Hpre : exists l, started (step q e) = started q ++ l /\ length l <= 1).
  { unfold started.
    assert (Hn : forall q0, exists l, tasks (next q0) = tasks q0 ++ l /\ length l <= 1).
    { intros q0. destruct (next_cases q0) as [[_ ->]|(e0 & rest & _ & _ & _ & _ & _ & _ & Ht & _)].
      - exists []. rewrite app_nil_r. split; [done | simpl; lia].
      - eexists. split; [exact Ht | simpl; lia]. }
    destruct e as [f|task ok|task]; simpl.
    - destruct (below _ _).
      + destruct (Hn (Build_t (maxConcurrency q)
                  (queue q ++ [{| func := f; handle := length (handles q) |}])
                  (activeTasks q) (funcTasks q ++ [length (handles q)])
                  (handles q ++ [Pending]) (tasks q) (enqueued q ++ [f]))) as (l & -> & Hl).
        exists (map (fun a => func (entry a)) l).
        rewrite map_app, length_map. done.
      + exists []. rewrite app_nil_r. split; [done | simpl; lia].
    - exists []. rewrite app_nil_r. split; [|simpl; lia].
      unfold jobSettles. destruct (tasks q !! task) as [a|] eqn:Ht; [|done].
      destruct (job a); try done.
      change (started (setTask task
        {| entry := entry a; job := settle ok Pending; chain := chain a |} q) = started q).
      by erewrite started_setTask.
    - unfold finallyRuns. destruct (tasks q !! task) as [a|] eqn:Ht;
        [|exists []; rewrite app_nil_r; split; [done | simpl; lia]].
      assert (Hs : started (setTask task
        {| entry := entry a; job := job a; chain := Fulfilled |} q) = started q)
        by (by erewrite started_setTask).
      unfold started in Hs.
      destruct (job a) eqn:Hj, (chain a) eqn:Hc;
        try (exists []; rewrite app_nil_r; split; [done | simpl; lia]);
        unfold onFinally;
        match goal with |- context [next ?q0] =>
          destruct (Hn q0) as (l & -> & Hl) end;
        exists (map (fun a => func (entry a)) l);
        rewrite map_app, length_map; simpl in *; rewrite Hs; done. }
  destruct Hpre as (l & Hl & Hlen).
  destruct l as [|f [|g l]]; [left; by rewrite Hl, app_nil_r | right | simpl in Hlen; lia].
  exists f. split; [done|].
  rewrite Hf, Hl, <- app_assoc, drop_app_length. done.
Qed.

(** C6 — failure isolation.  Two functions enqueued on a queue of
    concurrency 1: the second waits while the first runs; when the first
    job fails, its handle alone is rejected and the second handle stays
    pending; the [finally] callback of the first task then calls the second
    function at once; when the second job succeeds its handle is fulfilled,
    and the first stays rejected. *)
Theorem failure_isolation (j1 j2 : Job) :
  let q0 := run [Enqueue j1; Enqueue j2] (new (Finite 1)) in
  let q1 := run [JobSettles 0 false] q0 in
  let q2 := run [FinallyRuns 0] q1 in
  let q3 := run [JobSettles 1 true; FinallyRuns 1] q2 in
  (started q0 = [j1] /\ queue q0 = [{| func := j2; handle := 1 |}]) /\
  (handles q1 = [Rejected; Pending] /\ started q1 = [j1]) /\
  (handles q2 = [Rejected; Pending] /\ started q2 = [j1; j2] /\
     running q2 = [1] /\ activeTasks q2 = [1] /\ queue q2 = []) /\
  (handles q3 = [Rejected; Fulfilled] /\ running q3 = [] /\ activeTasks q3 = []).
Proof. intros q0 q1 q2 q3. repeat split. Qed.

(** *** What [clear()] does achieve *)

Lemma next_handles q : handles (next q) = handles q /\ funcTasks (next q) = funcTasks q.
Proof.
  destruct (next_cases q) as [[_ ->]|(e & rest & _ & _ & _ & _ & Hf & Hh & _)]; done.
Qed.

Lemma cancelTask_handles task q :
  handles (cancelTask task q) = handles q /\ funcTasks (cancelTask task q) = funcTasks q.
Proof.
  unfold cancelTask. destruct (tasks q !! task) as [a|]; [|done].
  destruct (chain a); try done. unfold onFinally.
  match goal with |- context [next ?q0] => destruct (next_handles q0) as [-> ->] end.
  done.
Qed.

Lemma forEachActive_handles k n q :
  handles (forEachActive k n q) = handles q /\
  funcTasks (forEachActive k n q) = funcTasks q.
Proof.
  revert k q. induction n as [|n IH]; intros k q; simpl; [done|].
  destruct (activeTasks q !! k) as [task|]; [|apply IH].
  destruct (IH (S k) (cancelTask task q)) as [-> ->]. apply cancelTask_handles.
Qed.

Lemma cancel_idempotent s : cancel (cancel s) = cancel s.
Proof. by destruct s. Qed.

Lemma cancelHandle_handles h q : handles (cancelHandle h q) = alter cancel h (handles q).
Proof.
  unfold cancelHandle. destruct (handles q !! h) as [s|] eqn:E; simpl.
  - apply list_eq. intros i. destruct (decide (i = h)) as [->|Hne].
    + rewrite list_lookup_insert_eq by (by eapply lookup_lt_Some).
      by rewrite list_lookup_alter_eq, E.
    + by rewrite list_lookup_insert_ne, list_lookup_alter_ne.
  - apply list_eq. intros i. destruct (decide (i = h)) as [->|Hne].
    + by rewrite list_lookup_alter_eq, E.
    + by rewrite list_lookup_alter_ne.
Qed.

Lemma cancelHandles_lookup l q h :
  h ∈ l ->
  handles (foldl (fun acc h => cancelHandle h acc) q l) !! h = cancel <$> handles q !! h.
Proof.
  revert q. induction l as [|x l IH]; intros q Hin; simpl; [inversion Hin|].
  destruct (decide (h ∈ l)) as [Hl|Hl].
  - rewrite IH by done. rewrite cancelHandle_handles.
    destruct (decide (x = h)) as [->|Hne].
    + rewrite list_lookup_alter_eq. destruct (handles q !! h); simpl; [|done].
      by rewrite cancel_idempotent.
    + by rewrite list_lookup_alter_ne.
  - apply elem_of_cons in Hin as [->|Hin]; [|done].
    assert (Hkeep : forall q0,
      handles (foldl (fun acc h => cancelHandle h acc) q0 l) !! x = handles q0 !! x).
    { clear IH. induction l as [|y l IHl]; intros q0; simpl; [done|].
      apply not_elem_of_cons in Hl as [Hne Hl].
      rewrite IHl by done. rewrite cancelHandle_handles.
      by rewrite list_lookup_alter_ne. }
    rewrite Hkeep, cancelHandle_handles. by rewrite list_lookup_alter_eq.
Qed.

(** Between calls of [clear()], [funcTasks] lists every handle made. *)
Lemma run_funcTasks es m :
  funcTasks (run es (new m)) = seq 0 (length (handles (run es (new m)))).
Proof.
  assert (Hstep : forall q e, funcTasks q = seq 0 (length (handles q)) ->
            funcTasks (step q e) = seq 0 (length (handles (step q e)))).
  { intros q e Hq. destruct e as [f|task ok|task]; simpl.
    - assert (Hq1 : funcTasks q ++ [length (handles q)]
                    = seq 0 (length (handles q ++ [Pending]))).
      { rewrite length_app. simpl. rewrite Nat.add_1_r, seq_S. by rewrite Hq. }
      destruct (below _ _); [|done].
      match goal with |- context [next ?q0] => destruct (next_handles q0) as [-> ->] end.
      done.
    - unfold jobSettles. destruct (tasks q !! task) as [a|]; [|done].
      destruct (job a); try done. simpl. by rewrite length_insert.
    - unfold finallyRuns. destruct (tasks q !! task) as [a|]; [|done].
      destruct (job a), (chain a); try done; unfold onFinally;
        match goal with |- context [next ?q0] => destruct (next_handles q0) as [-> ->] end;
        done. }
  assert (Hrun : forall es q, funcTasks q = seq 0 (length (handles q)) ->
            funcTasks (run es q) = seq 0 (length (handles (run es q)))).
  { clear es. intros es. induction es as [|e es IH]; intros q Hq; simpl; [done|].
    apply IH, Hstep, Hq. }
  by apply Hrun.
Qed.

(** After [clear()] the three lists are empty, and no handle made before
    is pending: each is settled already, or canceled. *)
Lemma clear_empties q :
  queue (clear q) = [] /\ activeTasks (clear q) = [] /\ funcTasks (clear q) = [].
Proof. done. Qed.

Lemma clear_cancels_handles es m :
  Forall (fun s => s <> Pending) (handles (clear (run es (new m)))).
Proof.
  apply Forall_lookup. intros h s Hs. unfold clear in Hs. simpl in Hs.
  set (q := run es (new m)) in *.
  destruct (forEachActive_handles 0 (length (activeTasks q)) q) as [Hh Hf].
  assert (Hlt : h < length (handles q)).
  { apply lookup_lt_Some in Hs.
    assert (Hlen : forall l q0,
      length (handles (foldl (fun acc h => cancelHandle h acc) q0 l)) = length (handles q0)).
    { intros l. induction l as [|x l IH]; intros q0; simpl; [done|].
      rewrite IH, cancelHandle_handles. apply length_alter. }
    rewrite Hlen, Hh in Hs. done. }
  rewrite cancelHandles_lookup in Hs.
  - rewrite Hh in Hs. destruct (handles q !! h) as [s0|]; [|done].
    injection Hs as <-. by destruct s0.
  - rewrite Hf. subst q. rewrite run_funcTasks. apply elem_of_seq. lia.
Qed.

(** With an empty queue, jobs that settle and [finally] callbacks that run
    call no function. *)
Lemma settlements_start_nothing es q :
  queue q = [] -> Forall (fun e => forall f, e <> Enqueue f) es ->
  started (run es q) = started q /\ queue (run es q) = [].
Proof.
  revert q. induction es as [|e es IH]; intros q Hq Hes; simpl; [done|].
  apply Forall_cons in Hes as [He Hes].
  assert (Hstep : started (step q e) = started q /\ queue (step q e) = []).
  { destruct e as [f|task ok|task]; [by destruct (He f)| |]; simpl.
    - unfold jobSettles. destruct (tasks q !! task) as [a|] eqn:Ht; [|done].
      destruct (job a); try done. split; [|done].
      change (started (setTask task
        {| entry := entry a; job := settle ok Pending; chain := chain a |} q) = started q).
      by erewrite started_setTask.
    - unfold finallyRuns. destruct (tasks q !! task) as [a|] eqn:Ht; [|done].
      assert (Hs : started (setTask task
        {| entry := entry a; job := job a; chain := Fulfilled |} q) = started q)
        by (by erewrite started_setTask).
      destruct (job a), (chain a); try done;
        unfold onFinally, next; simpl; rewrite Hq; simpl; done. }
  destruct Hstep as [Hs Hq']. destruct (IH _ Hq' Hes) as [-> ->]. done.
Qed.

(** So after [clear()] no settlement promotes an entry. *)
Lemma clear_then_settlements es q :
  Forall (fun e => forall f, e <> Enqueue f) es ->
  started (run es (clear q)) = started (clear q).
Proof. intros Hes. by apply settlements_start_nothing. Qed.

(** Without a backlog, too, [clear()] misses active tasks: the callback
    run by the first [cancel()] removes that task from [activeTasks], the
    second task moves to index 0, and [forEach] goes on to index 1. *)
Lemma clear_skips_active :
  running (run [Enqueue 10; Enqueue 11] (new Infinity)) = [0; 1] /\
  running (clear (run [Enqueue 10; Enqueue 11] (new Infinity))) = [1].
Proof. by split. Qed.

(** A job left running by [clear()] still has its callback: on a queue
    that is used again, it promotes an entry without having freed a place,
    and the bound of the histories without [clear()] is lost. *)
Lemma bound_lost_after_clear :
  activeTasks
    (run [Enqueue 12; Enqueue 13; JobSettles 1 true; FinallyRuns 1]
       (clear (run [Enqueue 10; Enqueue 11] (new (Finite 1))))) = [2; 3].
Proof. reflexivity. Qed.

(** C5 — [clear()] with a backlog.  Five functions enqueued on a queue of
    concurrency 2: tasks 0 and 1 run, three entries wait.  [clear()] cancels
    task 0, whose [finally] callback runs inside [cancel()], removes the
    task from [activeTasks] and calls [next()], which starts the third
    function; [forEach] then finds that new task at index 1, cancels it, and
    its callback starts the fourth function.  When [clear()] returns, four
    functions have been called, the jobs of tasks 1 and 3 are still running
    and were never canceled, and every handle is canceled. *)
Theorem clear_starts_backlog :
  (started fiveEnqueued = [10; 11] /\ running fiveEnqueued = [0; 1]) /\
  started (clear fiveEnqueued) = [10; 11; 12; 13] /\
  running (clear fiveEnqueued) = [1; 3] /\
  map job (tasks (clear fiveEnqueued)) = [Canceled; Pending; Canceled; Pending] /\
  handles (clear fiveEnqueued) = [Canceled; Canceled; Canceled; Canceled; Canceled].
Proof. repeat split. Qed.

End FunctionQueueFacts.

(** ** Teardown *)
Module AfterRunFacts.

Import AfterRun.


(** The run's outcome is safe only as far as [emit] is: when a [stop()]
    fails and the promise of [emit('error', ...)] rejects, the promise of
    the callback rejects, and that rejection replaces the outcome of the
    run, whatever it was. *)
Lemma failed_error_event_replaces_outcome (super : Outcome) :
  _afterRun super brokenErrorEmit (Some (Some "server down")) None false
    = ([RemoveInstrumentationHooks; Stop Server;
        Emit "error" (OfError "server down"); Settled],
       Rejected "reporter crashed").
Proof. reflexivity. Qed.



End AfterRunFacts.

(** ** The session suite's [after] hook *)
Module SessionSuiteFacts.

Import SessionSuite.

Lemma Suite_nested_ind (P : Suite -> Prop) :
  (forall e n ts,
     Forall (fun x => match x with ASuite s => P s | ATest _ => True end) ts ->
     P (mkSuite e n ts)) ->
  forall s, P s.
Proof.
  intros H. fix IH 1. intros [e n ts]. apply H.
  induction ts as [|[name|s] ts IHts]; constructor; auto.
Qed.

(** [hasError] is the check the source writes. *)
Lemma hasError_eq e n ts :
  hasError (mkSuite e n ts) =
  if bool_decide (e <> None) || (0 <? n) then true else someSuiteHasError ts.
Proof.
  simpl. destruct (bool_decide (e <> None) || (0 <? n)); [done|].
  unfold someSuiteHasError.
  induction ts as [|[name|s] ts IH]; simpl; [done | done | by rewrite IH].
Qed.

Lemma someSuiteHasError_spec ts :
  someSuiteHasError ts = true <-> exists s, ASuite s ∈ ts /\ hasError s = true.
Proof.
  unfold someSuiteHasError. induction ts as [|[name|s] ts IH]; simpl.
  - split; [done | intros (s & Hs & _); inversion Hs].
  - rewrite IH. split; intros (s & Hs & He); exists s; split; try done.
    + by apply elem_of_cons; right.
    + apply elem_of_cons in Hs as [Hs|Hs]; [discriminate | done].
  - rewrite orb_true_iff, IH. split.
    + intros [He|(s' & Hs & He)].
      * exists s. split; [by apply elem_of_cons; left | done].
      * exists s'. split; [by apply elem_of_cons; right | done].
    + intros (s' & Hs & He). apply elem_of_cons in Hs as [Hs|Hs].
      * injection Hs as ->. by left.
      * right. by exists s'.
Qed.

Lemma subtree_spec e n ts s' :
  s' ∈ subtree (mkSuite e n ts) <->
  s' = mkSuite e n ts \/ exists s, ASuite s ∈ ts /\ s' ∈ subtree s.
Proof.
  simpl. rewrite elem_of_cons. apply or_iff_compat_l.
  induction ts as [|[name|s] ts IH]; simpl.
  - split; [intros H; inversion H | intros (s & Hs & _); inversion Hs].
  - rewrite IH. split; intros (s & Hs & He); exists s; split; try done.
    + by apply elem_of_cons; right.
    + apply elem_of_cons in Hs as [Hs|Hs]; [discriminate | done].
  - rewrite elem_of_app, IH. split.
    + intros [He|(s0 & Hs & He)].
      * exists s. split; [by apply elem_of_cons; left | done].
      * exists s0. split; [by apply elem_of_cons; right | done].
    + intros (s0 & Hs & He). apply elem_of_cons in Hs as [Hs|Hs].
      * injection Hs as ->. by left.
      * right. by exists s0.
Qed.

(** The verdict: [hasError] holds exactly of the erroneous trees. *)
Lemma hasError_erroneous s : hasError s = true <-> erroneous s.
Proof.
  induction s as [e n ts IH] using Suite_nested_ind.
  rewrite hasError_eq. unfold erroneous.
  destruct (bool_decide (e <> None) || (0 <? n)) eqn:Hown.
  - split; [intros _|done]. exists (mkSuite e n ts). split.
    + apply subtree_spec. by left.
    + simpl. apply orb_true_iff in Hown as [H%bool_decide_eq_true|H%Nat.ltb_lt]; auto.
  - apply orb_false_iff in Hown as [He%bool_decide_eq_false Hn%Nat.ltb_ge].
    rewrite someSuiteHasError_spec. split.
    + intros (s & Hs & Hh).
      rewrite Forall_forall in IH. specialize (IH _ Hs). simpl in IH.
      apply IH in Hh as (s' & Hs' & Hbad). exists s'. split; [|done].
      apply subtree_spec. right. eauto.
    + intros (s' & [->|(s & Hs & Hs')]%subtree_spec & Hbad).
      * simpl in Hbad. destruct Hbad as [Hbad|Hbad]; [done | lia].
      * exists s. split; [done|].
        rewrite Forall_forall in IH. specialize (IH _ Hs). simpl in IH.
        apply IH. by exists s'.
Qed.

(** The calls of the hook on a live remote. *)
Lemma after_calls policy remote this quitResolves :
  after policy (Some remote) this quitResolves =
    (if leftOpen policy this then [] else [Quit (sessionId remote)])
      ++ [SendJobState (sessionId remote) (negb (hasError this))].
Proof.
  unfold after, finally_, quit, endSession.
  destruct (leftOpen policy this); [done|]. by destruct quitResolves.
Qed.

(** C3, as stated, fails: when the remote is closed, [quit()] is called
    first and the verdict is sent after it. *)
Lemma report_follows_quit :
  after (LeaveOpen false) (Some session1) passing true
    = [Quit "session-1"; SendJobState "session-1" true] /\
  firstIndex isQuit (after (LeaveOpen false) (Some session1) passing true) = Some 0 /\
  firstIndex isReport (after (LeaveOpen false) (Some session1) passing true) = Some 1.
Proof. repeat split. Qed.

(** C3, as the code has it.  With a live remote the hook sends one
    verdict, [success] being the negation of [hasError] of the suite, under
    the remote's session identifier, and it is the last call made; when the
    remote is closed, [quit()] comes before it, and the verdict is sent the
    same whether [quit()] resolves or rejects. *)
Theorem verdict_reported_after_close (policy : LeaveRemoteOpen) (remote : Remote)
    (this : Suite) (quitResolves : bool) :
  after policy (Some remote) this quitResolves =
    (if leftOpen policy this then [] else [Quit (sessionId remote)])
      ++ [SendJobState (sessionId remote) (negb (hasError this))].
Proof. apply after_calls. Qed.

(** C4, as stated, fails: a session suite all of whose tests passed, one
    of whose suites failed in its [after] hook, has no failed test and is
    erroneous, and with the policy ['fail'] its remote is closed all the
    same. *)
Lemma erroneous_suite_is_closed :
  erroneous brokenTeardown /\ hasError brokenTeardown = true /\
  numFailedTests brokenTeardown = 0 /\
  after LeaveOpenOnFail (Some session1) brokenTeardown true
    = [Quit "session-1"; SendJobState "session-1" false].
Proof.
  split; [|by repeat split].
  apply hasError_erroneous. reflexivity.
Qed.

(** C4, as the code has it.  With the policy ['fail'] the remote is left
    open, the verdict still sent, exactly when the suite's count of failed
    tests is positive; otherwise it is closed and the verdict sent after.  A
    positive count makes the verdict a failure. *)
Theorem leave_open_on_failed_tests (remote : Remote) (this : Suite) (quitResolves : bool) :
  after LeaveOpenOnFail (Some remote) this quitResolves =
    if 0 <? numFailedTests this
    then [SendJobState (sessionId remote) false]
    else [Quit (sessionId remote);
          SendJobState (sessionId remote) (negb (hasError this))].
Proof.
  rewrite after_calls. simpl.
  destruct (0 <? numFailedTests this) eqn:Hn; [|done].
  destruct this as [e n ts]. rewrite hasError_eq. simpl in Hn. rewrite Hn.
  by rewrite orb_true_r.
Qed.

End SessionSuiteFacts.

(** ** The entry decision of [_beforeRun] *)
Module BeforeRunFacts.

Import BeforeRun.

Lemma nonempty_length (l : list string) : (0 <? length l) = true <-> l <> [].
Proof. destruct l; simpl; [split; [discriminate | done] | split; [discriminate | done]]. Qed.

Lemma engaged_spec config :
  engaged config = true <->
  (environments config <> [] /\
     declared (functionalSuites config) (suites config) (browser_suites config))
  \/ serveOnly config = true.
Proof.
  unfold engaged, declared.
  rewrite orb_true_iff, andb_true_iff, nonempty_length, Nat.ltb_lt.
  destruct (functionalSuites config), (suites config), (browser_suites config);
    simpl; intuition (try lia; try discriminate; auto).
Qed.

(** C7, as stated, fails: with an environment and a node-side suite
    declared, and nothing else, the condition of the claim holds and the
    run stays local.  And in serve-only mode the server is the only part of
    the machinery that is engaged: no tunnel, no session suites. *)
Lemma node_suites_do_not_engage :
  ((environments nodeOnly <> [] /\
      declared (functionalSuites nodeOnly) (node_suites nodeOnly) (browser_suites nodeOnly)) /\
   engaged nodeOnly = false /\
   _beforeRun nodeOnly allResolve = []) /\
  _beforeRun serving allResolve = [ServerStart; AwaitInterrupt].
Proof.
  split; [|reflexivity].
  split; [|by split].
  split; [done|]. right. by left.
Qed.

(** C7, as the code has it.  The server is started exactly when there is an
    environment and a suite in [functionalSuites], [suites] or
    [browser.suites], or when [serveOnly] is set; otherwise no stage is
    entered.  The tunnel and the session suites are only made on that
    branch, and not in serve-only mode, which waits for the interrupt
    instead. *)
Theorem entry_decision (config : Config) (w : Answers) :
  (engaged config = true <->
     (environments config <> [] /\
        declared (functionalSuites config) (suites config) (browser_suites config))
     \/ serveOnly config = true) /\
  (ServerStart ∈ _beforeRun config w <-> engaged config = true) /\
  (_beforeRun config w = [] <-> engaged config = false) /\
  (TunnelCreate ∈ _beforeRun config w <->
     engaged config = true /\ serveOnly config = false /\ serverStarts w = true) /\
  (CreateSessionSuites ∈ _beforeRun config w <-> TunnelCreate ∈ _beforeRun config w) /\
  (TunnelStart ∈ _beforeRun config w <->
     TunnelCreate ∈ _beforeRun config w /\ sessionSuitesBuilt w = true).
Proof.
  split; [apply engaged_spec|].
  unfold _beforeRun.
  destruct (engaged config), (serverStarts w), (serveOnly config), (sessionSuitesBuilt w);
    repeat split; intros; try done;
    repeat match goal with
    | H : _ /\ _ |- _ => destruct H
    | H : _ ∈ [] |- _ => inversion H
    | H : _ ∈ _ :: _ |- _ => apply elem_of_cons in H as [H|H]; try discriminate
    | |- _ ∈ _ => repeat (first [by apply list_elem_of_here | apply list_elem_of_further])
    end; try done.
Qed.

End BeforeRunFacts.

(** ** Instrumenting code *)
Module InstrumentCodeFacts.

Import InstrumentCode.

Lemma contains_middle (a b c : string) : contains b (a +:+ b +:+ c).
Proof. by exists a, c. Qed.

Lemma append_assoc (a b c : string) : (a +:+ b) +:+ c = a +:+ (b +:+ c).
Proof.
  induction a as [|x a IH]; [done|].
  change (String x ((a +:+ b) +:+ c) = String x (a +:+ b +:+ c)). by f_equal.
Qed.

Lemma append_empty_r (a : string) : a +:+ "" = a.
Proof.
  induction a as [|x a IH]; [done|].
  change (String x (a +:+ "") = String x a). by f_equal.
Qed.

(** The warning names the file and carries the error's message. *)
Lemma warning_contains filename message :
  let text := "Error instrumenting " +:+ filename +:+ ": " +:+ message in
  contains filename text /\ contains message text.
Proof.
  intros text. subst text. split.
  - apply contains_middle.
  - exists ("Error instrumenting " +:+ filename +:+ ": "), "".
    by rewrite append_empty_r, !append_assoc.
Qed.

(** Adding a file coverage merges it into the record kept for its path, or
    makes it the record when there was none; other paths keep theirs. *)
Lemma addFileCoverage_lookup {FileCoverage : Type}
    (path : FileCoverage -> string) (merge : FileCoverage -> FileCoverage -> FileCoverage)
    (fc : FileCoverage) (m : gmap string FileCoverage) (p : string) :
  addFileCoverage path merge fc m !! p =
    if decide (p = path fc)
    then Some (match m !! path fc with Some old => merge old fc | None => fc end)
    else m !! p.
Proof.
  unfold addFileCoverage.
  destruct (decide (p = path fc)) as [->|Hne];
    destruct (m !! path fc) eqn:E;
    rewrite ?lookup_insert_eq, ?lookup_insert_ne by done; done.
Qed.

Section Instrumenter.

Context {SourceMap FileCoverage : Type}.
Context (path : FileCoverage -> string).
Context (merge : FileCoverage -> FileCoverage -> FileCoverage).
Context (instrumentSync :
  string -> string -> option SourceMap -> Instrumented SourceMap FileCoverage + string).
Context (readSourceMap : string -> string -> option SourceMap).
Context (normalize : string -> string).

(** C8 — the two outcomes of [instrumentCode].  When the instrumenter
    throws, the code comes back as it was given, one warning is emitted
    whose text names the file and carries the error's message, and neither
    the coverage map nor the store of instrumented maps changes.  When it
    returns, the new code comes back, the file coverage is merged into the
    coverage map under its path, the new source map is registered under the
    file name, and nothing is emitted. *)
Theorem instrumentCode_outcomes (code filename : string)
    (this : Executor SourceMap FileCoverage) :
  let result := instrumentCode path merge instrumentSync readSourceMap normalize
                  code filename this in
  match instrumentSync code (normalize filename) (readSourceMap filename code) with
  | inr message =>
      let text := "Error instrumenting " +:+ filename +:+ ": " +:+ message in
      fst result = code /\
      emitted (snd result) = emitted this ++ [("warning", text)] /\
      contains filename text /\ contains message text /\
      _coverageMap (snd result) = _coverageMap this /\
      _instrumentedMaps (snd result) = _instrumentedMaps this
  | inl r =>
      let fc := lastFileCoverage r in
      fst result = newCode r /\
      _coverageMap (snd result) = addFileCoverage path merge fc (_coverageMap this) /\
      _coverageMap (snd result) !! path fc =
        Some (match _coverageMap this !! path fc with
              | Some old => merge old fc
              | None => fc
              end) /\
      _instrumentedMaps (snd result) !! filename = Some (lastSourceMap r) /\
      emitted (snd result) = emitted this
  end.
Proof.
  intros result. subst result. unfold instrumentCode.
  destruct (instrumentSync code (normalize filename) (readSourceMap filename code))
    as [r|message]; simpl.
  - repeat split.
    + rewrite addFileCoverage_lookup. by rewrite decide_True.
    + unfold registerMap. apply lookup_insert_eq.
  - pose proof (warning_contains filename message) as [Hf Hm]. by repeat split.
Qed.

End Instrumenter.

End InstrumentCodeFacts.

(** ** Uncaught failures *)
Module UncaughtFacts.

Import Uncaught.

(** C9 — the two handlers.  For an error object with a message: the
    handler writes the prefixed message into the object itself and only
    then emits that object as an ['error'] event, so the event is emitted
    with the prefixed message already in place ([heard]) and the object
    keeps it afterwards ([messageOf]); and it warns on the console exactly
    when no ['error'] listener is registered, before the message is
    rewritten (the uncaught-exception warning shows the bare message). *)
Theorem uncaught_failures_relabelled (this : Executor) (reason : Ref) (message : string) :
  errors this !! reason = Some message ->
  let r := unhandledRejection reason this in
  let x := uncaughtException reason this in
  (messageOf reason r = Some ("Unhandled rejection: " +:+ message) /\
   emitted r = emitted this ++ [("error", reason)] /\
   heard r = heard this ++ [(reason, Some ("Unhandled rejection: " +:+ message))] /\
   console r = console this ++
     if noErrorListener this
     then [{| label := "Unhandled rejection:"; shown := None |}] else []) /\
  (messageOf reason x = Some ("Uncaught exception: " +:+ message) /\
   emitted x = emitted this ++ [("error", reason)] /\
   heard x = heard this ++ [(reason, Some ("Uncaught exception: " +:+ message))] /\
   console x = console this ++
     if noErrorListener this
     then [{| label := "Unhandled error:"; shown := Some message |}] else []).
Proof.
  intros Hm r x. subst r x.
  unfold unhandledRejection, uncaughtException, messageOf.
  destruct (noErrorListener this); simpl;
    rewrite ?lookup_alter_eq, ?Hm, ?app_nil_r; simpl; by repeat split.
Qed.

Lemma uncaught_failures_relabelled_witness :
  errors quiet !! 7 = Some "socket closed" /\
  messageOf 7 (unhandledRejection 7 quiet) = Some "Unhandled rejection: socket closed" /\
  heard (unhandledRejection 7 quiet) = [(7, Some "Unhandled rejection: socket closed")] /\
  console (unhandledRejection 7 quiet)
    = [{| label := "Unhandled rejection:"; shown := None |}] /\
  messageOf 7 (uncaughtException 7 quiet) = Some "Uncaught exception: socket closed" /\
  heard (uncaughtException 7 quiet) = [(7, Some "Uncaught exception: socket closed")].
Proof.
  assert (Hm : errors quiet !! 7 = Some "socket closed") by reflexivity.
  destruct (uncaught_failures_relabelled quiet 7 "socket closed" Hm)
    as [(H1 & _ & H2 & H3) (H4 & _ & H5 & _)].
  split; [exact Hm|]. split; [exact H1|]. split; [exact H2|].
  split; [exact H3|]. split; [exact H4 | exact H5].
Defined.

End UncaughtFacts.

(** ** The ['coverage'] option *)
Module ProcessOptionFacts.

Import ProcessOption.

(** The case either throws and leaves the configuration as it was, or sets
    the option to [false] or to a list of strings. *)
Lemma _processOption_cases parseValue value config :
  (exists message, _processOption parseValue value config = (config, Some message)) \/
  (exists parsed,
     _processOption parseValue value config = (_setOption parsed config, None)
     /\ allowed parsed).
Proof.
  unfold _processOption, allowed.
  destruct (parse parseValue "coverage" value) as [[[|]|l]|message].
  - left. eauto.
  - right. eexists. split; [reflexivity | by left].
  - right. eexists. split; [reflexivity | right; eauto].
  - left. eauto.
Qed.

(** C10 — the ['coverage'] case.  With a parser that reads a boolean as
    itself: the value [true] makes the case throw, and so does every value
    that the boolean parser reads as [true]; a throw leaves the
    configuration as it was; and whenever the case does not throw, the
    option it has set is [false] or a list of strings. *)
Theorem coverage_is_false_or_strings
    (parseValue : string -> Value -> TypeName -> Parsed + string)
    (value : Value) (config : Config) :
  readsBooleans parseValue ->
  _processOption parseValue (VBoolean true) config
    = (config, Some "Non-false boolean for 'coverage'") /\
  (parseValue "coverage" value boolean = inl (PBoolean true) ->
   _processOption parseValue value config
     = (config, Some "Non-false boolean for 'coverage'")) /\
  (forall config' message,
     _processOption parseValue value config = (config', Some message) ->
     config' = config) /\
  (forall config',
     _processOption parseValue value config = (config', None) ->
     allowed (coverage config')).
Proof.
  intros Hb. repeat split.
  - unfold _processOption, parse. by rewrite Hb.
  - intros Ht. unfold _processOption, parse. by rewrite Ht.
  - intros config' message H.
    destruct (_processOption_cases parseValue value config)
      as [(m & E)|(p & E & _)]; rewrite E in H; by inversion H.
  - intros config' H.
    destruct (_processOption_cases parseValue value config)
      as [(m & E)|(p & E & Hp)]; rewrite E in H; inversion H. done.
Qed.

Lemma sampleParser_readsBooleans : readsBooleans sampleParser.
Proof. intros name b. reflexivity. Defined.

(** The sample parser reads booleans as themselves; with it, [true] and
    the word for it throw, and a list of paths is accepted. *)
Lemma coverage_is_false_or_strings_witness :
  readsBooleans sampleParser /\
  _processOption sampleParser (VBoolean true) defaults
    = (defaults, Some "Non-false boolean for 'coverage'") /\
  _processOption sampleParser (VString "true") defaults
    = (defaults, Some "Non-false boolean for 'coverage'") /\
  allowed (coverage (fst (_processOption sampleParser
                            (VArray [VString "src/**/*.js"]) defaults))).
Proof.
  split; [exact sampleParser_readsBooleans|].
  destruct (coverage_is_false_or_strings sampleParser
              (VString "true") defaults sampleParser_readsBooleans)
    as (H1 & H2 & _).
  destruct (coverage_is_false_or_strings sampleParser
              (VArray [VString "src/**/*.js"]) defaults sampleParser_readsBooleans)
    as (_ & _ & _ & H4).
  split; [exact H1|]. split; [apply H2; reflexivity|].
  apply H4. reflexivity.
Defined.

End ProcessOptionFacts.

(** ** More on the queue, and on [_runRemoteTests] *)
Module RunRemoteTestsFacts.

Import Task FunctionQueue FunctionQueueFacts RunRemoteTests Turns.

Lemma pullFromArray_NoDup (l : list nat) needle :
  NoDup l -> NoDup (pullFromArray l needle).
Proof.
  induction 1 as [|x l Hx Hl IH]; simpl; [constructor|].
  destruct (decide (x = needle)); [done|].
  constructor; [|done]. rewrite pullFromArray_elem. tauto.
Qed.

Lemma pullFromArray_one (l : list nat) needle :
  NoDup l -> needle ∈ l -> S (length (pullFromArray l needle)) = length l.
Proof.
  induction 1 as [|x l Hx Hl IH]; simpl; [intros H; inversion H|].
  intros Hin. destruct (decide (x = needle)) as [->|Hne].
  - by rewrite pullFromArray_absent.
  - simpl. apply elem_of_cons in Hin as [->|Hin]; [done|]. by rewrite IH.
Qed.

Lemma new_busy m : Busy (new m).
Proof.
  split; simpl; [constructor | intros i H; inversion H | done].
Qed.

(** [next()] on a queue whose active tasks are distinct and unfinished. *)
Lemma next_busy_tasks q :
  NoDup (activeTasks q) ->
  (forall i, i ∈ activeTasks q -> exists a, tasks q !! i = Some a /\ chain a = Pending) ->
  NoDup (activeTasks (next q)) /\
  (forall i, i ∈ activeTasks (next q) ->
     exists a, tasks (next q) !! i = Some a /\ chain a = Pending).
Proof.
  intros Hd Hp.
  destruct (next_cases q) as [[_ ->]|(e & rest & Hq & _ & _ & Hact & _ & _ & Ht & _)]; [done|].
  rewrite Hact, Ht. split.
  - apply NoDup_app. split; [done|]. split; [|apply NoDup_singleton].
    intros i Hi ->%list_elem_of_singleton.
    destruct (Hp _ Hi) as (a & Ha & _). apply lookup_lt_Some in Ha. lia.
  - intros i [Hi| ->%list_elem_of_singleton]%elem_of_app.
    + destruct (Hp _ Hi) as (a & Ha & Hc). exists a. split; [|done].
      by apply lookup_app_l_Some.
    + eexists. split; [apply list_lookup_middle; done | done].
Qed.

Lemma enqueue_busy f q : Busy q -> Busy (snd (enqueue f q)).
Proof.
  intros [Hd Hp Hfull]. unfold enqueue. simpl.
  set (q1 := Build_t _ _ _ _ _ _ _).
  destruct (below (length (activeTasks q)) (maxConcurrency q)) eqn:Hb.
  - assert (Hq : queue q = []).
    { destruct (queue q) eqn:E; [done|].
      assert (Hno : true = false) by (by apply Hfull). discriminate Hno. }
    destruct (next_busy_tasks q1 Hd Hp) as [Hd' Hp'].
    split; [done | done |].
    destruct (next_cases q1) as [[Hq1 _]|(e & rest & Hq1 & _ & Hrest & _)].
    + simpl in Hq1. rewrite Hq in Hq1. discriminate.
    + simpl in Hq1. rewrite Hq in Hq1. injection Hq1 as _ <-. by rewrite Hrest.
  - by split.
Qed.

Lemma jobSettles_busy task ok q : Busy q -> Busy (jobSettles task ok q).
Proof.
  intros [Hd Hp Hfull]. unfold jobSettles.
  destruct (tasks q !! task) as [a|] eqn:Ht; [|by split].
  destruct (job a); try by split.
  split; simpl; [done | | done].
  intros i Hi. destruct (Hp i Hi) as (b & Hb & Hc).
  destruct (decide (i = task)) as [->|Hne].
  - eexists. split.
    + apply list_lookup_insert_eq. by eapply lookup_lt_Some.
    + simpl. congruence.
  - exists b. by rewrite list_lookup_insert_ne.
Qed.

Lemma finallyRuns_busy task q : Inv q -> Busy q -> Busy (finallyRuns task q).
Proof.
  intros HI [Hd Hp Hfull]. unfold finallyRuns.
  destruct (tasks q !! task) as [a|] eqn:Ht; [|by split].
  assert (Hgo : chain a = Pending ->
    Busy (onFinally task
            (setTask task {| entry := entry a; job := job a; chain := Fulfilled |} q))).
  { intros Hc. pose proof (inv_active q HI task a Ht Hc) as Hin.
    unfold onFinally. set (q2 := Build_t _ _ _ _ _ _ _).
    assert (Hd2 : NoDup (activeTasks q2)) by (by apply pullFromArray_NoDup).
    assert (Hp2 : forall i, i ∈ activeTasks q2 ->
              exists b, tasks q2 !! i = Some b /\ chain b = Pending).
    { intros i [Hi Hne]%pullFromArray_elem. destruct (Hp i Hi) as (b & Hb & Hcb).
      exists b. simpl. by rewrite list_lookup_insert_ne. }
    destruct (next_busy_tasks q2 Hd2 Hp2) as [Hd' Hp'].
    split; [done | done |].
    destruct (next_cases q2) as [[Hq2 ->]|(e & rest & Hq2 & Hm & Hrest & Hact & _)].
    + done.
    + intros _. rewrite Hm, Hact, length_app. simpl.
      rewrite Nat.add_1_r, (pullFromArray_one _ _ Hd Hin).
      apply Hfull. simpl in Hq2. by rewrite Hq2. }
  destruct (job a), (chain a); try (by split); by apply Hgo.
Qed.

Lemma run_busy es q : Inv q -> Busy q -> Inv (run es q) /\ Busy (run es q).
Proof.
  revert q. induction es as [|e es IH]; intros q HI HB; simpl; [done|].
  apply IH; [by apply step_inv|].
  destruct e; simpl;
    [by apply enqueue_busy | by apply jobSettles_busy | by apply finallyRuns_busy].
Qed.

(** X1 - an entry waits only on a full queue.  On a queue whose bound is a
    count, at every instant of a history without [clear()]: if an entry
    waits, the active tasks are exactly as many as the bound allows, and
    each of them is unfinished. *)
Theorem waits_only_when_full (n : Z) (es : list Event) :
  (0 <= n)%Z ->
  queue (run es (new (Finite n))) <> [] ->
  Z.of_nat (length (activeTasks (run es (new (Finite n))))) = n /\
  forall i, i ∈ activeTasks (run es (new (Finite n))) ->
    exists a, tasks (run es (new (Finite n))) !! i = Some a /\ chain a = Pending.
Proof.
  intros Hn Hq.
  destruct (run_busy es (new (Finite n)) (new_inv (Finite n) Hn) (new_busy _)) as [HI HB].
  pose proof (busy_full _ HB Hq) as Hfull.
  pose proof (inv_bound _ HI) as Hb.
  rewrite run_maxConcurrency in Hfull, Hb. simpl in Hfull, Hb.
  apply Z.ltb_ge in Hfull. split; [lia | apply HB].
Qed.

Lemma waits_only_when_full_witness :
  (0 <= 2)%Z /\ queue (run mixedHistory (new (Finite 2))) <> [] /\
  Z.of_nat (length (activeTasks (run mixedHistory (new (Finite 2))))) = 2%Z.
Proof.
  assert (H0 : (0 <= 2)%Z) by lia.
  assert (Hq : queue (run mixedHistory (new (Finite 2))) <> []) by (vm_compute; discriminate).
  split; [exact H0|]. split; [exact Hq|].
  exact (proj1 (waits_only_when_full 2 mixedHistory H0 Hq)).
Defined.

(** *** Handles *)

Lemma new_mirrors m : Mirrors (new m).
Proof. split; simpl; [done | done | intros e H; inversion H | done]. Qed.

(** [Mirrors] reads the tasks, the queue and the handles only. *)
Lemma mirrors_ext q q' :
  tasks q' = tasks q -> queue q' = queue q -> handles q' = handles q ->
  Mirrors q -> Mirrors q'.
Proof. intros Ht Hq Hh [H1 H2 H3 H4]. split; rewrite ?Ht, ?Hq, ?Hh; done. Qed.

Lemma mirrors_handle_lt q x :
  Mirrors q -> x ∈ map handle (map entry (tasks q) ++ queue q) -> x < length (handles q).
Proof. intros [H1 _ _ _]. rewrite H1. intros Hx%elem_of_seq. lia. Qed.

Lemma mirrors_task_lookup q i a :
  tasks q !! i = Some a ->
  map handle (map entry (tasks q) ++ queue q) !! i = Some (handle (entry a)).
Proof.
  intros Hi. change (map ?f ?l) with (f <$> l).
  rewrite list_lookup_fmap, lookup_app_l.
  - by rewrite list_lookup_fmap, Hi.
  - rewrite length_fmap. by eapply lookup_lt_Some.
Qed.

Lemma mirrors_queue_lookup q k e :
  queue q !! k = Some e ->
  map handle (map entry (tasks q) ++ queue q) !! (length (tasks q) + k)
    = Some (handle e).
Proof.
  intros Hk. change (map ?f ?l) with (f <$> l).
  rewrite list_lookup_fmap, lookup_app_r; rewrite length_fmap; [|lia].
  replace (length (tasks q) + k - length (tasks q)) with k by lia.
  by rewrite Hk.
Qed.

Lemma mirrors_distinct q :
  Mirrors q -> NoDup (map handle (map entry (tasks q) ++ queue q)).
Proof. intros [H1 _ _ _]. rewrite H1. apply NoDup_seq. Qed.

Lemma next_mirrors q : Mirrors q -> Mirrors (next q).
Proof.
  intros HM. pose proof HM as [H1 H2 H3 H4].
  destruct (next_cases q) as [[_ ->]|(e & rest & Hq & _ & Hrest & _ & _ & Hh & Ht & _)];
    [done|].
  split; rewrite ?Hh, ?Ht, ?Hrest.
  - rewrite (map_app entry). simpl. rewrite <- app_assoc. simpl.
    rewrite <- Hq. exact H1.
  - intros i a Hi. destruct (decide (i < length (tasks q))) as [Hlt|Hge].
    + rewrite lookup_app_l in Hi by done. eauto.
    + rewrite lookup_app_r in Hi by lia.
      destruct (i - length (tasks q)) as [|k]; simpl in Hi; [|done].
      injection Hi as <-. simpl. apply H3. rewrite Hq. by apply elem_of_cons; left.
  - intros e' He'. apply H3. rewrite Hq. by apply elem_of_cons; right.
  - intros i a Hi. destruct (decide (i < length (tasks q))) as [Hlt|Hge].
    + rewrite lookup_app_l in Hi by done. eauto.
    + rewrite lookup_app_r in Hi by lia.
      destruct (i - length (tasks q)) as [|k]; simpl in Hi; [|done].
      by injection Hi as <-.
Qed.

Lemma enqueue_mirrors f q : Mirrors q -> Mirrors (snd (enqueue f q)).
Proof.
  intros HM. pose proof HM as [H1 H2 H3 H4]. unfold enqueue. simpl.
  set (q1 := Build_t _ _ _ _ _ _ _).
  assert (HM1 : Mirrors q1).
  { split; simpl.
    - rewrite app_assoc, map_app, H1, length_app. simpl.
      by rewrite Nat.add_1_r, seq_S.
    - intros i a Hi. rewrite lookup_app_l; [by apply (H2 i)|].
      apply (mirrors_handle_lt q _ HM).
      apply (list_elem_of_lookup_2 _ i). by apply mirrors_task_lookup.
    - intros e [He| ->%list_elem_of_singleton]%elem_of_app.
      + rewrite lookup_app_l; [by apply H3|].
        apply (mirrors_handle_lt q _ HM). apply list_elem_of_lookup_1 in He as [k Hk].
        eapply list_elem_of_lookup_2. by apply mirrors_queue_lookup.
      + simpl. by rewrite list_lookup_middle.
    - done. }
  destruct (below _ _); [by apply next_mirrors | done].
Qed.

Lemma entries_setTask i a a' q :
  tasks q !! i = Some a -> entry a' = entry a ->
  map entry (<[i := a']> (tasks q)) = map entry (tasks q).
Proof.
  intros Hi He. change (map ?f ?l) with (f <$> l).
  rewrite list_fmap_insert, He. apply list_insert_id.
  by rewrite list_lookup_fmap, Hi.
Qed.

Lemma jobSettles_mirrors task ok q : Mirrors q -> Mirrors (jobSettles task ok q).
Proof.
  intros HM. pose proof HM as [H1 H2 H3 H4]. unfold jobSettles.
  destruct (tasks q !! task) as [a|] eqn:Ht; [|done].
  destruct (job a) eqn:Hj; try done.
  pose proof (H2 _ _ Ht) as Hh. rewrite Hj in Hh.
  unfold handleState. rewrite Hh. simpl.
  pose proof (mirrors_distinct q HM) as Hnd.
  pose proof (mirrors_task_lookup q task a Ht) as Hpos.
  split; simpl.
  - rewrite length_insert. by erewrite entries_setTask.
  - intros i b Hi. destruct (decide (i = task)) as [->|Hne].
    + rewrite list_lookup_insert_eq in Hi by (by eapply lookup_lt_Some).
      injection Hi as <-. simpl.
      apply list_lookup_insert_eq. by eapply lookup_lt_Some.
    + rewrite list_lookup_insert_ne in Hi by done.
      rewrite list_lookup_insert_ne; [by apply (H2 i)|].
      intros Heq. apply Hne. symmetry.
      eapply (NoDup_lookup _ _ _ _ Hnd); [exact Hpos|].
      rewrite Heq. by apply mirrors_task_lookup.
  - intros e He. apply list_elem_of_lookup_1 in He as [k Hk].
    rewrite list_lookup_insert_ne; [by eapply H3, list_elem_of_lookup_2|].
    intros Heq.
    assert (Hpos' := mirrors_queue_lookup q k e Hk). rewrite <- Heq in Hpos'.
    pose proof (NoDup_lookup _ _ _ _ Hnd Hpos Hpos') as Habs.
    apply lookup_lt_Some in Ht. lia.
  - intros i b Hi. destruct (decide (i = task)) as [->|Hne].
    + rewrite list_lookup_insert_eq in Hi by (by eapply lookup_lt_Some).
      injection Hi as <-. simpl. by destruct ok.
    + rewrite list_lookup_insert_ne in Hi by done. eauto.
Qed.

Lemma finallyRuns_mirrors task q : Mirrors q -> Mirrors (finallyRuns task q).
Proof.
  intros HM. pose proof HM as [H1 H2 H3 H4]. unfold finallyRuns.
  destruct (tasks q !! task) as [a|] eqn:Ht; [|done].
  assert (Hgo : Mirrors (onFinally task
            (setTask task {| entry := entry a; job := job a; chain := Fulfilled |} q))).
  { unfold onFinally. apply next_mirrors. split; simpl.
    - by erewrite entries_setTask.
    - intros i b Hi. destruct (decide (i = task)) as [->|Hne].
      + rewrite list_lookup_insert_eq in Hi by (by eapply lookup_lt_Some).
        injection Hi as <-. simpl. eauto.
      + rewrite list_lookup_insert_ne in Hi by done. eauto.
    - done.
    - intros i b Hi. destruct (decide (i = task)) as [->|Hne].
      + rewrite list_lookup_insert_eq in Hi by (by eapply lookup_lt_Some).
        injection Hi as <-. simpl. eauto.
      + rewrite list_lookup_insert_ne in Hi by done. eauto. }
  destruct (job a), (chain a); done.
Qed.

Lemma run_mirrors es q : Mirrors q -> Mirrors (run es q).
Proof.
  revert q. induction es as [|e es IH]; intros q HM; simpl; [done|].
  apply IH. destruct e; simpl;
    [by apply enqueue_mirrors | by apply jobSettles_mirrors | by apply finallyRuns_mirrors].
Qed.

(** *** Handles, turn by turn *)


(** What [jobSettles] keeps is kept turn by turn as well. *)
Lemma mirrors_follows q : Mirrors q -> Follows q.
Proof.
  intros [H1 H2 H3 H4]. split; [done | | done | done].
  intros i a Hi. exists (job a). split; [by apply (H2 i) | by right].
Qed.

Lemma follows_handle_lt q x :
  Follows q -> x ∈ map handle (map entry (tasks q) ++ queue q) -> x < length (handles q).
Proof. intros [H1 _ _ _]. rewrite H1. intros Hx%elem_of_seq. lia. Qed.









(** [jobSettles] is the job ending and, at once, its handle settling. *)
Lemma jobSettles_two_turns task ok q :
  Mirrors q -> jobSettles task ok q = handleSettles task (jobEnds task ok q).
Proof.
  intros [H1 H2 H3 H4]. unfold jobSettles, jobEnds, handleSettles.
  destruct (tasks q !! task) as [a|] eqn:Ht; [|by rewrite Ht].
  assert (Hlt : task < length (tasks q)) by (by eapply lookup_lt_Some).
  destruct (job a) eqn:Hj.
  - rewrite Ht, Hj. pose proof (H2 _ _ Ht) as Hh. rewrite Hj in Hh.
    unfold handleState, setHandle. rewrite Hh. simpl.
    rewrite list_insert_id by done. by destruct q.
  - simpl. rewrite list_lookup_insert_eq by done. simpl.
    by destruct ok.
  - rewrite Ht, Hj. pose proof (H2 _ _ Ht) as Hh. rewrite Hj in Hh.
    unfold handleState, setHandle. rewrite Hh. simpl.
    rewrite list_insert_id by done. by destruct q.
  - rewrite Ht, Hj. done.
Qed.

(** Every history of [FunctionQueue] is a history of turns. *)
Lemma run_is_play es m :
  run es (new m) = play (concat (map turns es)) (new m).
Proof.
  assert (Hgen : forall q, Mirrors q -> run es q = play (concat (map turns es)) q).
  { induction es as [|e es IH]; intros q HM; [done|].
    change (run (e :: es) q) with (run es (step q e)).
    change (concat (map turns (e :: es))) with (turns e ++ concat (map turns es)).
    rewrite IH by (change (step q e) with (run [e] q); by apply run_mirrors).
    unfold play. rewrite foldl_app. f_equal.
    destruct e; simpl; [done | by apply jobSettles_two_turns | done]. }
  apply Hgen, new_mirrors.
Qed.



(** *** Promotion *)

(** An unfinished task ends, well or badly, and its callback runs: the
    first waiting entry is started and the task leaves [activeTasks]. *)
Lemma finish_fires q task a ok e rest :
  tasks q !! task = Some a -> chain a = Pending -> job a <> Canceled ->
  queue q = e :: rest ->
  started (finallyRuns task (jobSettles task ok q)) = started q ++ [func e] /\
  queue (finallyRuns task (jobSettles task ok q)) = rest /\
  task ∉ activeTasks (finallyRuns task (jobSettles task ok q)).
Proof.
  intros Ht Hc Hj Hq.
  assert (Hmid : exists a1, tasks (jobSettles task ok q) !! task = Some a1 /\
            chain a1 = Pending /\ (job a1 = Fulfilled \/ job a1 = Rejected) /\
            queue (jobSettles task ok q) = queue q /\
            started (jobSettles task ok q) = started q /\
            length (tasks (jobSettles task ok q)) = length (tasks q)).
  { unfold jobSettles. rewrite Ht. destruct (job a) eqn:Hja; try done.
    - exists a. by repeat split; auto.
    - eexists. split; [simpl; apply list_lookup_insert_eq; by eapply lookup_lt_Some|].
      simpl. repeat split; try done.
      + destruct ok; auto.
      + change (started (setTask task
          {| entry := entry a; job := settle ok Pending; chain := chain a |} q) = started q).
        by erewrite started_setTask.
      + by rewrite length_insert.
    - exists a. by repeat split; auto. }
  destruct Hmid as (a1 & Ht1 & Hc1 & Hj1 & Hq1 & Hs1 & Hl1).
  set (q1 := jobSettles task ok q) in *.
  assert (Hfin : finallyRuns task q1 = onFinally task
            (setTask task {| entry := entry a1; job := job a1; chain := Fulfilled |} q1)).
  { unfold finallyRuns. rewrite Ht1, Hc1. by destruct Hj1 as [-> | ->]. }
  rewrite Hfin. unfold onFinally. set (q2 := Build_t _ _ _ _ _ _ _).
  assert (Hs2 : started q2 = started q).
  { rewrite <- Hs1.
    change (started (setTask task
      {| entry := entry a1; job := job a1; chain := Fulfilled |} q1) = started q1).
    by erewrite started_setTask. }
  destruct (next_cases q2) as [[Hq2 _]|(e0 & rest0 & Hq2 & _ & Hrest & Hact & _ & _ & Htk & _)].
  - simpl in Hq2. rewrite Hq1, Hq in Hq2. discriminate.
  - simpl in Hq2. rewrite Hq1, Hq in Hq2. injection Hq2 as <- <-.
    repeat split.
    + unfold started in *. rewrite Htk, map_app, Hs2. done.
    + done.
    + rewrite Hact. simpl. intros [Hin|Heq%list_elem_of_singleton]%elem_of_app.
      * apply pullFromArray_elem in Hin as [_ Hne]. done.
      * rewrite length_insert in Heq. apply lookup_lt_Some in Ht1. lia.
Qed.

(** X3 - finishing any active task starts the longest-waiting entry.  At
    every instant of a history without [clear()] on a queue with a sensible
    bound: when an active task ends, whether its job succeeds or fails, and
    its [finally] callback runs, the function at the head of the queue is
    the one called, the rest of the queue keeps its order, and the task
    leaves [activeTasks]. *)
Theorem finishing_starts_longest_waiting (m : Concurrency) (es : list Event)
    (task : nat) (ok : bool) (e : QueueEntry) (rest : list QueueEntry) :
  sensible m ->
  task ∈ activeTasks (run es (new m)) ->
  queue (run es (new m)) = e :: rest ->
  started (run [JobSettles task ok; FinallyRuns task] (run es (new m)))
    = started (run es (new m)) ++ [func e] /\
  queue (run [JobSettles task ok; FinallyRuns task] (run es (new m))) = rest /\
  task ∉ activeTasks (run [JobSettles task ok; FinallyRuns task] (run es (new m))).
Proof.
  intros Hm Hin Hq.
  destruct (run_busy es (new m) (new_inv m Hm) (new_busy m)) as [HI HB].
  pose proof (run_mirrors es (new m) (new_mirrors m)) as HM.
  destruct (busy_pending _ HB task Hin) as (a & Ha & Hc).
  apply (finish_fires _ task a ok e rest Ha Hc (mirrors_live _ HM _ _ Ha) Hq).
Qed.

Lemma finishing_starts_longest_waiting_witness :
  sensible (Finite 2) /\
  0 ∈ activeTasks (run mixedHistory (new (Finite 2))) /\
  queue (run mixedHistory (new (Finite 2))) = [{| func := 13; handle := 3 |}] /\
  started (run [JobSettles 0 false; FinallyRuns 0] (run mixedHistory (new (Finite 2))))
    = started (run mixedHistory (new (Finite 2))) ++ [13].
Proof.
  assert (Hm : sensible (Finite 2)) by (simpl; lia).
  assert (Hin : 0 ∈ activeTasks (run mixedHistory (new (Finite 2))))
    by (vm_compute; apply list_elem_of_here).
  assert (Hq : queue (run mixedHistory (new (Finite 2))) = [{| func := 13; handle := 3 |}])
    by reflexivity.
  split; [exact Hm|]. split; [exact Hin|]. split; [exact Hq|].
  exact (proj1 (finishing_starts_longest_waiting (Finite 2) mixedHistory 0 false
                  _ _ Hm Hin Hq)).
Defined.

(** *** The ends of the range of bounds *)

(** X4 - without a bound nothing waits.  On a queue made with [Infinity],
    at every instant of a history without [clear()], the queue is empty and
    every function enqueued has been called, in the order of the calls of
    [enqueue]. *)
Theorem unbounded_never_waits (es : list Event) :
  queue (run es (new Infinity)) = [] /\
  started (run es (new Infinity)) = enqueued (run es (new Infinity)).
Proof.
  destruct (run_busy es (new Infinity) (new_inv Infinity I) (new_busy _)) as [HI HB].
  assert (Hq : queue (run es (new Infinity)) = []).
  { destruct (queue (run es (new Infinity))) eqn:E; [done|].
    assert (Hf := busy_full _ HB). rewrite E, run_maxConcurrency in Hf.
    simpl in Hf. discriminate Hf. done. }
  split; [done|]. rewrite (inv_fifo _ HI), Hq. simpl. by rewrite app_nil_r.
Qed.

Lemma idle_step (n : Z) q e :
  (n <= 0)%Z -> maxConcurrency q = Finite n -> tasks q = [] ->
  map func (queue q) = enqueued q ->
  maxConcurrency (step q e) = Finite n /\ tasks (step q e) = [] /\
  map func (queue (step q e)) = enqueued (step q e).
Proof.
  intros Hn Hm Ht Hq. destruct e as [f|task ok|task]; simpl.
  - rewrite Hm. simpl. replace (Z.of_nat _ <? n)%Z with false by (symmetry; apply Z.ltb_ge; lia).
    simpl. by rewrite map_app, Hq.
  - unfold jobSettles. by rewrite Ht.
  - unfold finallyRuns. by rewrite Ht.
Qed.

(** X5 - a bound that is not positive starts nothing.  On a queue made
    with a bound of zero or less, at every instant of a history without
    [clear()], no function has been called: every function enqueued waits,
    and every handle is pending. *)
Theorem nonpositive_bound_starts_nothing (n : Z) (es : list Event) :
  (n <= 0)%Z ->
  started (run es (new (Finite n))) = [] /\
  map func (queue (run es (new (Finite n)))) = enqueued (run es (new (Finite n))) /\
  Forall (fun s => s = Pending) (handles (run es (new (Finite n)))).
Proof.
  intros Hn.
  assert (Hrun : forall es q, maxConcurrency q = Finite n -> tasks q = [] ->
            map func (queue q) = enqueued q ->
            tasks (run es q) = [] /\ map func (queue (run es q)) = enqueued (run es q)).
  { clear es. intros es. induction es as [|e es IH]; intros q Hm Ht Hq; simpl; [done|].
    destruct (idle_step n q e Hn Hm Ht Hq) as (Hm' & Ht' & Hq'). by apply IH. }
  destruct (Hrun es (new (Finite n)) eq_refl eq_refl eq_refl) as [Ht Hq].
  split; [unfold started; by rewrite Ht|]. split; [done|].
  pose proof (run_mirrors es (new (Finite n)) (new_mirrors _)) as [H1 _ H3 _].
  rewrite Ht in H1. simpl in H1.
  apply Forall_lookup. intros h s Hs.
  assert (Hh : h ∈ map handle (queue (run es (new (Finite n))))).
  { rewrite H1. apply elem_of_seq. apply lookup_lt_Some in Hs. lia. }
  change (map ?f ?l) with (f <$> l) in Hh.
  apply list_elem_of_fmap in Hh as (e & -> & He).
  specialize (H3 e He). congruence.
Qed.

Lemma nonpositive_bound_starts_nothing_witness :
  (-1 <= 0)%Z /\
  started (run [Enqueue 10; Enqueue 11] (new (Finite (-1)))) = [] /\
  map func (queue (run [Enqueue 10; Enqueue 11] (new (Finite (-1))))) = [10; 11].
Proof.
  assert (Hn : (-1 <= 0)%Z) by lia.
  destruct (nonpositive_bound_starts_nothing (-1) [Enqueue 10; Enqueue 11] Hn)
    as (H1 & H2 & _).
  split; [exact Hn|]. split; [exact H1 | exact H2].
Defined.

(** *** [_runRemoteTests] *)

Lemma enqueueAll_run suites q : enqueueAll suites q = run (map Enqueue suites) q.
Proof.
  revert q. induction suites as [|s suites IH]; intros q; [done|].
  unfold enqueueAll, run in *. simpl. apply IH.
Qed.

Lemma enqueue_enqueued f q : enqueued (snd (enqueue f q)) = enqueued q ++ [f].
Proof.
  unfold enqueue. simpl. destruct (below _ _); [|done].
  match goal with |- context [next ?q0] =>
    destruct (next_cases q0) as [[_ ->]|(e & rest & _ & _ & _ & _ & _ & _ & _ & ->)] end;
    done.
Qed.

Lemma enqueue_fresh f q :
  activeTasks q = seq 0 (length (tasks q)) ->
  activeTasks (snd (enqueue f q)) = seq 0 (length (tasks (snd (enqueue f q)))).
Proof.
  intros Ha. unfold enqueue. simpl. destruct (below _ _); [|done].
  match goal with |- context [next ?q0] =>
    destruct (next_cases q0) as [[_ ->]|(e & rest & _ & _ & _ & Hact & _ & _ & Ht & _)] end;
    [done|].
  rewrite Hact, Ht, length_app. simpl. by rewrite Nat.add_1_r, seq_S, Ha.
Qed.

Lemma enqueueAll_facts suites q :
  activeTasks q = seq 0 (length (tasks q)) ->
  enqueued (enqueueAll suites q) = enqueued q ++ suites /\
  activeTasks (enqueueAll suites q) = seq 0 (length (tasks (enqueueAll suites q))).
Proof.
  revert q. induction suites as [|s suites IH]; intros q Ha.
  - split; [by rewrite app_nil_r | done].
  - destruct (IH (snd (enqueue s q)) (enqueue_fresh s q Ha)) as [He Hact].
    split; [|exact Hact].
    change (enqueueAll (s :: suites) q) with (enqueueAll suites (snd (enqueue s q))).
    rewrite He, enqueue_enqueued, <- app_assoc. done.
Qed.

Lemma idle_run (n : Z) es :
  (n <= 0)%Z ->
  tasks (run es (new (Finite n))) = [] /\
  map func (queue (run es (new (Finite n)))) = enqueued (run es (new (Finite n))).
Proof.
  intros Hn.
  assert (Hrun : forall es q, maxConcurrency q = Finite n -> tasks q = [] ->
            map func (queue q) = enqueued q ->
            tasks (run es q) = [] /\ map func (queue (run es q)) = enqueued (run es q)).
  { clear es. intros es. induction es as [|e es IH]; intros q Hm Ht Hq; simpl; [done|].
    destruct (idle_step n q e Hn Hm Ht Hq) as (Hm' & Ht' & Hq'). by apply IH. }
  by apply Hrun.
Qed.

(** What a new queue has started when a list of functions has been
    enqueued and nothing has settled. *)
Lemma enqueueAll_new m suites :
  started (enqueueAll suites (new m)) = take (capacity m (length suites)) suites /\
  map func (queue (enqueueAll suites (new m))) = drop (capacity m (length suites)) suites.
Proof.
  destruct (enqueueAll_facts suites (new m) eq_refl) as [He Hact]. simpl in He.
  rewrite enqueueAll_run in *.
  set (q := run (map Enqueue suites) (new m)) in *.
  destruct m as [n|].
  - destruct (decide (n <= 0)%Z) as [Hn|Hn].
    + destruct (idle_run n (map Enqueue suites) Hn) as [Ht Hq]. fold q in Ht, Hq.
      unfold capacity. replace (Z.to_nat n) with 0 by lia. simpl.
      unfold started. rewrite Ht, Hq, He. by rewrite drop_0.
    + assert (Hm : sensible (Finite n)) by (simpl; lia).
      destruct (run_busy (map Enqueue suites) (new (Finite n))
                  (new_inv (Finite n) Hm) (new_busy _)) as [HI HB]. fold q in HI, HB.
      pose proof (inv_fifo _ HI) as Hf. rewrite He in Hf.
      pose proof (inv_bound _ HI) as Hb.
      assert (Hmax : maxConcurrency q = Finite n) by apply run_maxConcurrency.
      rewrite Hmax in Hb. simpl in Hb.
      assert (Hlen : length (started q) = length (activeTasks q)).
      { unfold started. by rewrite length_map, Hact, length_seq. }
      assert (Hsz : length suites = length (started q) + length (queue q)).
      { by rewrite Hf, length_app, length_map. }
      destruct (queue q) as [|e rest] eqn:Eq.
      * simpl in Hf, Hsz. rewrite app_nil_r in Hf.
        assert (Hcap : capacity (Finite n) (length suites) = length suites).
        { unfold capacity. lia. }
        rewrite Hcap, take_ge, drop_ge by lia. by rewrite Hf.
      * pose proof (busy_full _ HB) as Hfull. rewrite Eq, Hmax in Hfull.
        simpl in Hfull. specialize (Hfull ltac:(done)). apply Z.ltb_ge in Hfull.
        assert (Hcap : capacity (Finite n) (length suites) = length (started q)).
        { unfold capacity. simpl in Hsz. lia. }
        rewrite Hcap, Hf. by rewrite take_app_length, drop_app_length.
  - destruct (run_busy (map Enqueue suites) (new Infinity)
                (new_inv Infinity I) (new_busy _)) as [HI HB]. fold q in HI, HB.
    pose proof (inv_fifo _ HI) as Hf. rewrite He in Hf.
    assert (Hq : queue q = []).
    { destruct (queue q) eqn:E; [done|].
      assert (Hfull := busy_full _ HB). rewrite E in Hfull.
      assert (Hmax : maxConcurrency q = Infinity) by apply run_maxConcurrency.
      rewrite Hmax in Hfull. simpl in Hfull. discriminate Hfull. done. }
    rewrite Hq in *. simpl in *. rewrite app_nil_r in Hf.
    rewrite take_ge, drop_ge by lia. by rewrite Hf.
Qed.

(** X6 - the session suites start in order, up to the limit.  When
    [_runRemoteTests] has enqueued the session suites, the suites started
    are the first ones of the list, as many as the limit allows, and the
    others wait in the order of the list.  A [maxConcurrency] of zero is no
    limit at all: every suite is started. *)
Theorem remote_suites_start_in_order (maxConcurrency : Concurrency)
    (sessionSuites : list Job) :
  started (_runRemoteTests maxConcurrency sessionSuites)
    = take (capacity (limit maxConcurrency) (length sessionSuites)) sessionSuites /\
  map func (queue (_runRemoteTests maxConcurrency sessionSuites))
    = drop (capacity (limit maxConcurrency) (length sessionSuites)) sessionSuites /\
  started (_runRemoteTests (Finite 0) sessionSuites) = sessionSuites.
Proof.
  unfold _runRemoteTests. split; [apply enqueueAll_new|]. split; [apply enqueueAll_new|].
  destruct (enqueueAll_new (limit (Finite 0)) sessionSuites) as [-> _].
  simpl. by apply take_ge.
Qed.

(** X7 - what [clear()] achieves.  After [clear()] on a queue reached by
    a history without [clear()], no handle made before is pending, the
    queue, [activeTasks] and [funcTasks] are empty, and no later settlement
    or [finally] callback starts a function. *)
Theorem clear_settles_handles (m : Concurrency) (es later : list Event) :
  Forall (fun e => forall f, e <> Enqueue f) later ->
  Forall (fun s => s <> Pending) (handles (clear (run es (new m)))) /\
  queue (clear (run es (new m))) = [] /\
  activeTasks (clear (run es (new m))) = [] /\
  funcTasks (clear (run es (new m))) = [] /\
  started (run later (clear (run es (new m)))) = started (clear (run es (new m))).
Proof.
  intros Hlater. split; [apply clear_cancels_handles|].
  repeat split. by apply settlements_start_nothing.
Qed.

Lemma clear_settles_handles_witness :
  Forall (fun e => forall f, e <> Enqueue f) [JobSettles 1 true; FinallyRuns 1] /\
  Forall (fun s => s <> Pending) (handles (clear fiveEnqueued)) /\
  started (run [JobSettles 1 true; FinallyRuns 1] (clear fiveEnqueued))
    = started (clear fiveEnqueued).
Proof.
  assert (H : Forall (fun e => forall f, e <> Enqueue f) [JobSettles 1 true; FinallyRuns 1])
    by (repeat constructor; discriminate).
  destruct (clear_settles_handles (Finite 2)
              [Enqueue 10; Enqueue 11; Enqueue 12; Enqueue 13; Enqueue 14] _ H)
    as (H1 & _ & _ & _ & H5).
  split; [exact H|]. split; [exact H1 | exact H5].
Defined.

End RunRemoteTestsFacts.

(** ** The verdict of a session suite *)
Module VerdictFacts.

Import SessionSuite SessionSuiteFacts.

(** X8 - the verdict reads the whole tree.  [hasError] holds of a suite
    exactly when the suite itself or some suite below it, at any depth,
    has an error or a positive count of failed tests; so the verdict sent
    by [endSession] is a success exactly when no suite of the tree has
    either. *)
Theorem verdict_reads_whole_tree (this : Suite) (remote : Remote) :
  (hasError this = true <-> erroneous this) /\
  (endSession remote this = [SendJobState (sessionId remote) true] <->
   forall s, s ∈ subtree this -> error s = None /\ numFailedTests s = 0).
Proof.
  split; [apply hasError_erroneous|].
  unfold endSession. split.
  - intros H. injection H as H. apply negb_true_iff in H.
    intros s Hs. destruct (error s) eqn:He, (numFailedTests s) eqn:Hn; try done;
      exfalso; apply eq_true_false_abs with (b := hasError this); try done;
      apply hasError_erroneous; exists s; (split; [done|]);
      rewrite ?He, ?Hn; first [by left | right; lia].
  - intros H. f_equal. f_equal. apply negb_true_iff.
    destruct (hasError this) eqn:Hh; [|done].
    apply hasError_erroneous in Hh as (s & Hs & [He|Hn]);
      destruct (H s Hs) as [He' Hn']; [done | lia].
Qed.

End VerdictFacts.

(** ** Loading scripts *)
Module LoadScriptFacts.

Import LoadScript.

Lemma loadAll_app_ok w before rest :
  Forall (loads w) before ->
  loadAll w (before ++ rest)
    = (filesOf w before ++ fst (loadAll w rest), snd (loadAll w rest)).
Proof.
  unfold filesOf, loads. induction 1 as [|s before Hs Hb IH]; simpl.
  - by destruct (loadAll w rest).
  - destruct (loadOne w s) as [required [error|]] eqn:E; simpl in Hs; [done|].
    rewrite IH. simpl. by rewrite <- app_assoc.
Qed.

Lemma loadAll_resolves w scripts :
  snd (loadAll w scripts) = None <-> Forall (loads w) scripts.
Proof.
  unfold loads. induction scripts as [|s scripts IH]; simpl.
  - split; [constructor | done].
  - destruct (loadOne w s) as [required [error|]] eqn:E; simpl.
    + split; [done|]. intros H. apply Forall_cons in H as [H _].
      rewrite E in H. done.
    + rewrite IH. split.
      * intros H. constructor; [by rewrite E | done].
      * intros H. by apply Forall_cons in H as [_ H].
Qed.

(** X9 - the task resolves exactly when every script loads.  A list of
    scripts resolves if and only if each script of the list loads; a single
    script is treated as a list of one; and an empty list resolves without
    a call of [require]. *)
Theorem loadScript_resolves_when_all_load (w : Modules) (scripts : list string)
    (one : string) :
  (snd (loadScript w (inr scripts)) = None <-> Forall (loads w) scripts) /\
  loadScript w (inl one) = loadScript w (inr [one]) /\
  loadScript w (inr []) = ([], None).
Proof.
  split; [apply loadAll_resolves | by split].
Qed.

(** X10 - when every script loads, each file was required, in order. *)
Theorem loadScript_requires_in_order (w : Modules) (scripts : list string) :
  Forall (loads w) scripts ->
  loadScript w (inr scripts) = (filesOf w scripts, None).
Proof.
  intros H. unfold loadScript. pose proof (loadAll_app_ok w scripts [] H) as Hall.
  rewrite !app_nil_r in Hall. by rewrite Hall.
Qed.

Lemma loadScript_requires_in_order_witness :
  Forall (loads sample) ["a.js"; "b.js"] /\
  loadScript sample (inr ["a.js"; "b.js"]) = (["/app/a.js"; "/app/b.js"], None).
Proof.
  assert (H : Forall (loads sample) ["a.js"; "b.js"]) by (repeat constructor).
  split; [exact H|].
  exact (loadScript_requires_in_order sample ["a.js"; "b.js"] H).
Defined.

(** X11 - the first failure ends the loop.  When the scripts before one
    load and that one throws, whether [require] or the resolver throws, the
    task is rejected with that error, the files of the scripts before it
    were handed to [require] in order, and no script after it is looked at,
    whatever it is. *)
Theorem loadScript_stops_at_first_failure (w : Modules) (before after : list string)
    (bad : string) (error : string) :
  Forall (loads w) before ->
  snd (loadOne w bad) = Some error ->
  loadScript w (inr (before ++ bad :: after))
    = (filesOf w before ++ fst (loadOne w bad), Some error).
Proof.
  intros Hb Hbad. unfold loadScript. rewrite loadAll_app_ok by done.
  simpl. destruct (loadOne w bad) as [required [e|]] eqn:E; simpl in *; [|done].
  by injection Hbad as ->.
Qed.

Lemma loadScript_stops_at_first_failure_witness :
  Forall (loads sample) ["a.js"] /\
  snd (loadOne sample "broken.js") = Some "SyntaxError" /\
  loadScript sample (inr ["a.js"; "broken.js"; "b.js"])
    = (["/app/a.js"; "/app/broken.js"], Some "SyntaxError").
Proof.
  assert (H1 : Forall (loads sample) ["a.js"]) by (repeat constructor).
  assert (H2 : snd (loadOne sample "broken.js") = Some "SyntaxError") by reflexivity.
  split; [exact H1|]. split; [exact H2|].
  exact (loadScript_stops_at_first_failure sample ["a.js"] ["b.js"] "broken.js"
           "SyntaxError" H1 H2).
Defined.

End LoadScriptFacts.

(** ** The server URL *)
Module ServerUrlFacts.

Import ServerUrl.

Lemma append_cons c (r x : string) : String c r +:+ x = String c (r +:+ x).
Proof. reflexivity. Qed.

Lemma append_nil_l (x : string) : "" +:+ x = x.
Proof. reflexivity. Qed.

Lemma trimSlashes_cons c rest :
  trimSlashes (String c rest) =
  match trimSlashes rest with
  | EmptyString => if Ascii.eqb c "/"%char then EmptyString else String c EmptyString
  | trimmed => String c trimmed
  end.
Proof. reflexivity. Qed.

Lemma trimSlashes_app_slash (t : string) : trimSlashes (t +:+ "/") = trimSlashes t.
Proof.
  induction t as [|c r IH]; [reflexivity|].
  by rewrite append_cons, !trimSlashes_cons, IH.
Qed.

Lemma trimSlashes_clean (s : string) : endsWithSlash (trimSlashes s) = false.
Proof.
  induction s as [|c r IH]; [reflexivity|].
  rewrite trimSlashes_cons. destruct (trimSlashes r) as [|d t] eqn:E.
  - destruct (Ascii.eqb c "/"%char) eqn:Ec; [reflexivity|]. simpl. exact Ec.
  - exact IH.
Qed.

Lemma trimSlashes_fixed (t : string) : endsWithSlash t = false -> trimSlashes t = t.
Proof.
  induction t as [|c r IH]; [reflexivity|].
  intros H. rewrite trimSlashes_cons. destruct r as [|d r'].
  - simpl in *. by rewrite H.
  - rewrite IH by exact H. reflexivity.
Qed.

Lemma trimSlashes_decompose (s : string) : exists k, s = trimSlashes s +:+ slashes k.
Proof.
  induction s as [|c r [k IH]]; [by exists 0|].
  rewrite trimSlashes_cons. destruct (trimSlashes r) as [|d t] eqn:E.
  - destruct (Ascii.eqb c "/"%char) eqn:Ec.
    + apply Ascii.eqb_eq in Ec as ->. exists (S k).
      rewrite append_nil_l in *. simpl. f_equal. exact IH.
    + exists k. rewrite append_cons. f_equal. exact IH.
  - exists k. rewrite append_cons. f_equal. exact IH.
Qed.

Lemma endsWithSlash_app_slash (t : string) : endsWithSlash (t +:+ "/") = true.
Proof.
  induction t as [|c r IH]; [reflexivity|].
  rewrite append_cons. destruct r as [|d r']; [reflexivity|].
  change (endsWithSlash (String c (String d r' +:+ "/")))
    with (endsWithSlash (String d r' +:+ "/")). exact IH.
Qed.

(** X12 - the server URL ends in exactly one slash.  The URL is kept up
    to the run of slashes at its end, and that run, of any length and also
    when empty, becomes one slash; so a URL without a slash at its end gets
    one appended, and normalising twice is normalising once. *)
Theorem serverUrl_ends_in_one_slash (serverUrl : string) :
  (exists base k,
     serverUrl = base +:+ slashes k /\ endsWithSlash base = false /\
     normalizeServerUrl serverUrl = base +:+ "/") /\
  endsWithSlash (normalizeServerUrl serverUrl) = true /\
  normalizeServerUrl (normalizeServerUrl serverUrl) = normalizeServerUrl serverUrl /\
  (endsWithSlash serverUrl = false -> normalizeServerUrl serverUrl = serverUrl +:+ "/").
Proof.
  unfold normalizeServerUrl. repeat split.
  - destruct (trimSlashes_decompose serverUrl) as [k Hk].
    exists (trimSlashes serverUrl), k. split; [exact Hk|]. split; [|done].
    apply trimSlashes_clean.
  - apply endsWithSlash_app_slash.
  - rewrite trimSlashes_app_slash, trimSlashes_fixed; [done|]. apply trimSlashes_clean.
  - intros H. by rewrite trimSlashes_fixed.
Qed.

(** Three URLs: none, one and several slashes at the end. *)
Lemma serverUrl_samples :
  normalizeServerUrl "http://localhost:9000" = "http://localhost:9000/" /\
  normalizeServerUrl "http://localhost:9000/" = "http://localhost:9000/" /\
  normalizeServerUrl "http://localhost:9000/app///" = "http://localhost:9000/app/" /\
  normalizeServerUrl "" = "/".
Proof. repeat split. Qed.

End ServerUrlFacts.

(** ** The coverage pass and instrumenting again *)
Module CoveragePassFacts.

Import InstrumentCode InstrumentCodeFacts CoveragePass.

Section Instrumenter.

Context {SourceMap FileCoverage : Type}.
Context (path : FileCoverage -> string).
Context (merge : FileCoverage -> FileCoverage -> FileCoverage).
Context (instrumentSync :
  string -> string -> option SourceMap -> Instrumented SourceMap FileCoverage + string).
Context (readSourceMap : string -> string -> option SourceMap).
Context (normalize : string -> string).
Context (readFileSync : string -> option string).

Implicit Types this : Executor SourceMap FileCoverage.

(** [instrumentCode] takes no file out of the coverage map. *)
Lemma instrumentCode_keeps code filename this p :
  is_Some (_coverageMap this !! p) ->
  is_Some (_coverageMap (snd (instrumentCode path merge instrumentSync readSourceMap
                                normalize code filename this)) !! p).
Proof.
  intros Hp. unfold instrumentCode.
  destruct (instrumentSync code (normalize filename) (readSourceMap filename code))
    as [r|message]; simpl; [|done].
  rewrite addFileCoverage_lookup. by destruct (decide (p = path (lastFileCoverage r))).
Qed.

Lemma instrumentFile_keeps this filename p :
  is_Some (_coverageMap this !! p) ->
  is_Some (_coverageMap (instrumentFile path merge instrumentSync readSourceMap
                           normalize readFileSync this filename) !! p).
Proof.
  intros Hp. unfold instrumentFile. destruct (readFileSync filename); [|done].
  by apply instrumentCode_keeps.
Qed.

Lemma instrumentFiles_keep files this p :
  is_Some (_coverageMap this !! p) ->
  is_Some (_coverageMap (foldl (instrumentFile path merge instrumentSync readSourceMap
                                  normalize readFileSync) this files) !! p).
Proof.
  revert this. induction files as [|f files IH]; intros this Hp; simpl; [done|].
  by apply IH, instrumentFile_keeps.
Qed.

Lemma instrumentFile_adds this filename :
  instrumentable path instrumentSync readSourceMap normalize readFileSync filename ->
  is_Some (_coverageMap (instrumentFile path merge instrumentSync readSourceMap
                           normalize readFileSync this filename) !! filename).
Proof.
  intros (code & r & Hread & Hins & Hpath). unfold instrumentFile, instrumentCode.
  rewrite Hread, Hins. simpl. rewrite addFileCoverage_lookup, decide_True by done. done.
Qed.

Lemma instrumentFiles_add files this filename :
  filename ∈ files ->
  instrumentable path instrumentSync readSourceMap normalize readFileSync filename ->
  is_Some (_coverageMap (foldl (instrumentFile path merge instrumentSync readSourceMap
                                  normalize readFileSync) this files) !! filename).
Proof.
  intros Hin Hok. revert this. induction files as [|f files IH]; intros this; simpl.
  - inversion Hin.
  - apply elem_of_cons in Hin as [->|Hin].
    + by apply instrumentFiles_keep, instrumentFile_adds.
    + by apply IH.
Qed.

(** X13 - the pass covers what it can.  After the pass, a coverage file
    is listed in the coverage map if it was listed before, or if it can be
    read and instrumented with its coverage recorded under its own name;
    the other coverage files, unreadable or not instrumentable, do not
    prevent that. *)
Theorem coveragePass_covers (coverageFiles : list string) (filename : string) this :
  filename ∈ coverageFiles ->
  is_Some (_coverageMap this !! filename) \/
    instrumentable path instrumentSync readSourceMap normalize readFileSync filename ->
  is_Some (_coverageMap (coveragePass path merge instrumentSync readSourceMap
                           normalize readFileSync coverageFiles this) !! filename).
Proof.
  intros Hin Hcase. unfold coveragePass.
  destruct (_coverageMap this !! filename) as [fc|] eqn:Hcov.
  - apply instrumentFiles_keep. by rewrite Hcov.
  - destruct Hcase as [Hsome|Hok]; [by destruct Hsome|].
    apply instrumentFiles_add; [|done].
    unfold uncoveredFiles. apply list_elem_of_In, filter_In. split.
    + by apply list_elem_of_In.
    + unfold uncovered. by rewrite Hcov.
Qed.

(** X14 - the pass only adds.  No file leaves the coverage map; and when
    every coverage file is listed already, as when there are none, nothing
    is read or instrumented and the executor is left as it was. *)
Theorem coveragePass_only_adds (coverageFiles : list string) this :
  (forall p, is_Some (_coverageMap this !! p) ->
     is_Some (_coverageMap (coveragePass path merge instrumentSync readSourceMap
                              normalize readFileSync coverageFiles this) !! p)) /\
  (Forall (fun f => is_Some (_coverageMap this !! f)) coverageFiles ->
   coveragePass path merge instrumentSync readSourceMap normalize readFileSync
     coverageFiles this = this).
Proof.
  split.
  - intros p Hp. by apply instrumentFiles_keep.
  - intros Hall. unfold coveragePass, uncoveredFiles.
    replace (List.filter (uncovered this) coverageFiles) with (@nil string); [done|].
    symmetry. induction Hall as [|f files [fc Hf] Hfiles IH]; simpl; [done|].
    unfold uncovered at 1. by rewrite Hf.
Qed.

(** X15 - instrumenting a file again accumulates.  When the same code of
    the same file is instrumented twice, the second file coverage is merged
    into the record made by the first, which is not replaced, and the source
    map registered last is the one kept. *)
Theorem instrumentCode_twice code filename this r :
  instrumentSync code (normalize filename) (readSourceMap filename code) = inl r ->
  let once := snd (instrumentCode path merge instrumentSync readSourceMap normalize
                     code filename this) in
  let twice := snd (instrumentCode path merge instrumentSync readSourceMap normalize
                      code filename once) in
  _coverageMap twice !! path (lastFileCoverage r) =
    Some (merge (match _coverageMap this !! path (lastFileCoverage r) with
                 | Some old => merge old (lastFileCoverage r)
                 | None => lastFileCoverage r
                 end) (lastFileCoverage r)) /\
  _instrumentedMaps twice !! filename = Some (lastSourceMap r) /\
  dom (_coverageMap twice) = dom (_coverageMap once).
Proof.
  intros Hr once twice. subst once twice. unfold instrumentCode. rewrite Hr. simpl.
  repeat split.
  - rewrite !addFileCoverage_lookup, !decide_True by done. done.
  - unfold registerMap. apply lookup_insert_eq.
  - apply set_eq. intros p. rewrite !elem_of_dom, !addFileCoverage_lookup.
    destruct (decide (p = path (lastFileCoverage r))); [|done].
    split; intros _; by eexists.
Qed.

End Instrumenter.

Lemma coveragePass_covers_witness :
  "/app/b.js" ∈ ["/app/a.js"; "/app/missing.js"; "/app/broken.js"; "/app/b.js"] /\
  instrumentable samplePath sampleInstrument (fun _ _ => None) id sampleRead "/app/b.js" /\
  is_Some (_coverageMap
             (coveragePass samplePath sampleMerge sampleInstrument (fun _ _ => None) id
                sampleRead ["/app/a.js"; "/app/missing.js"; "/app/broken.js"; "/app/b.js"]
                sampleExecutor) !! "/app/b.js").
Proof.
  assert (Hin : "/app/b.js" ∈
            ["/app/a.js"; "/app/missing.js"; "/app/broken.js"; "/app/b.js"])
    by (repeat first [apply list_elem_of_here | apply list_elem_of_further]).
  assert (Hok : instrumentable samplePath sampleInstrument (fun _ _ => None) id
                  sampleRead "/app/b.js").
  { eexists "run();", _. split; [reflexivity|]. split; reflexivity. }
  split; [exact Hin|]. split; [exact Hok|].
  exact (coveragePass_covers samplePath sampleMerge sampleInstrument (fun _ _ => None) id
           sampleRead _ "/app/b.js" sampleExecutor Hin (or_intror Hok)).
Defined.

Lemma instrumentCode_twice_witness :
  sampleInstrument "run();" (id "/app/a.js") None
    = inl {| newCode := "cov();run();"; lastFileCoverage := ("/app/a.js", 0);
             lastSourceMap := "map of /app/a.js" |} /\
  _coverageMap
    (snd (instrumentCode samplePath sampleMerge sampleInstrument (fun _ _ => None) id
            "run();" "/app/a.js"
            (snd (instrumentCode samplePath sampleMerge sampleInstrument (fun _ _ => None) id
                    "run();" "/app/a.js" sampleExecutor)))) !! "/app/a.js"
    = Some ("/app/a.js", 3).
Proof.
  assert (Hr : sampleInstrument "run();" (id "/app/a.js") None
    = inl {| newCode := "cov();run();"; lastFileCoverage := ("/app/a.js", 0);
             lastSourceMap := "map of /app/a.js" |}) by reflexivity.
  split; [exact Hr|].
  exact (proj1 (instrumentCode_twice samplePath sampleMerge sampleInstrument
                  (fun _ _ => None) id "run();" "/app/a.js" sampleExecutor _ Hr)).
Defined.

End CoveragePassFacts.

(** ** Instrumentation hooks *)
Module HooksFacts.

Import Hooks.

(** X16 - the life of the hooks.  With the executor as the constructor
    leaves it: after [_resolveConfig] a file is to be instrumented exactly
    when [config.coverage] is a list whose resolved expansion has it, so
    never when it is [false]; [_loadSuites] sets the hooks exactly when
    that expansion is not empty; and after [_removeInstrumentationHooks] no
    hook is active or remembered, whether any was set or not.  Removing
    the hooks again changes nothing, in any state. *)
Theorem hooks_lifecycle (expandFiles : list string -> list string)
    (resolve : string -> string) (coverage : option (list string)) (this : t) :
  let resolved := _resolveConfig expandFiles resolve coverage initial in
  let loaded := _loadSuites resolved in
  (forall filename,
     shouldInstrumentFile filename resolved = true <->
     exists patterns, coverage = Some patterns /\
       filename ∈ map resolve (expandFiles patterns)) /\
  (hookFree loaded <->
   coverage = None \/ exists patterns, coverage = Some patterns /\ expandFiles patterns = []) /\
  (~ hookFree loaded ->
   runInThisContextHooked loaded = true /\ requireHooks loaded = [0]) /\
  hookFree (_removeInstrumentationHooks loaded) /\
  _removeInstrumentationHooks (_removeInstrumentationHooks this)
    = _removeInstrumentationHooks this.
Proof.
  intros resolved loaded. subst resolved loaded.
  split; [|split; [|split; [|split]]].
  - intros filename. unfold shouldInstrumentFile. simpl. rewrite bool_decide_eq_true.
    destruct coverage as [patterns|].
    + split; [eauto|]. by intros (p & [= <-] & H).
    + split; [intros H; inversion H | by intros (p & [=] & _)].
  - unfold _loadSuites, hasCoveredFiles, hookFree. simpl.
    destruct coverage as [patterns|]; simpl.
    + destruct (expandFiles patterns) as [|f files] eqn:E; simpl.
      * split; [intros _; right; eauto | done].
      * split; [by intros (H & _)|].
        intros [H|(p & [= <-] & H)]; [done|]. rewrite E in H. done.
    + split; [by left | done].
  - unfold _loadSuites, hasCoveredFiles, hookFree. simpl.
    destruct coverage as [patterns|]; simpl; [|intros H; by destruct H].
    destruct (expandFiles patterns); simpl; [intros H; by destruct H | done].
  - unfold _loadSuites, hasCoveredFiles, hookFree. simpl.
    destruct coverage as [patterns|]; simpl; [|done].
    by destruct (expandFiles patterns).
  - done.
Qed.

End HooksFacts.

(** ** Uncaught failures, again *)
Module UncaughtMoreFacts.

Import Uncaught.

(** X17 - the handlers rewrite one object, every time.  A handler changes
    the message of the error it is given and of no other error, and leaves
    the listeners alone; and since it writes into the object, an error that
    reaches both handlers carries both prefixes, the later one first, and
    is emitted twice. *)
Theorem handlers_rewrite_one_object (this : Executor) (reason other : Ref)
    (message : string) :
  errors this !! reason = Some message ->
  other <> reason ->
  errors (unhandledRejection reason this) !! other = errors this !! other /\
  errors (uncaughtException reason this) !! other = errors this !! other /\
  _listeners (unhandledRejection reason this) = _listeners this /\
  _listeners (uncaughtException reason this) = _listeners this /\
  messageOf reason (uncaughtException reason (unhandledRejection reason this))
    = Some ("Uncaught exception: " +:+ "Unhandled rejection: " +:+ message) /\
  emitted (uncaughtException reason (unhandledRejection reason this))
    = emitted this ++ [("error", reason); ("error", reason)].
Proof.
  intros Hm Hne.
  unfold unhandledRejection, uncaughtException, messageOf.
  destruct (noErrorListener this) eqn:Hn; simpl;
    unfold noErrorListener; simpl; fold (noErrorListener this); rewrite ?Hn; simpl;
    rewrite ?lookup_alter_ne by done;
    rewrite ?lookup_alter_eq, ?Hm; simpl; rewrite <- ?app_assoc; by repeat split.
Qed.

Lemma handlers_rewrite_one_object_witness :
  errors quiet !! 7 = Some "socket closed" /\ 8 <> 7 /\
  messageOf 7 (uncaughtException 7 (unhandledRejection 7 quiet))
    = Some "Uncaught exception: Unhandled rejection: socket closed".
Proof.
  assert (Hm : errors quiet !! 7 = Some "socket closed") by reflexivity.
  assert (Hne : 8 <> 7) by lia.
  destruct (handlers_rewrite_one_object quiet 7 8 "socket closed" Hm Hne)
    as (_ & _ & _ & _ & H & _).
  split; [exact Hm|]. split; [exact Hne | exact H].
Defined.

End UncaughtMoreFacts.

(** ** Functional suites *)
Module SuitesFacts.

Import Suites.

Lemma register_loading factories sessions log :
  register factories
    {| _loadingFunctionalSuites := true; _sessionSuites := Some sessions; applied := log |}
  = {| _loadingFunctionalSuites := true; _sessionSuites := Some sessions;
       applied := log ++ eachToEach factories sessions |}.
Proof.
  unfold register. revert log. induction factories as [|f factories IH]; intros log; simpl.
  - unfold eachToEach. simpl. by rewrite app_nil_r.
  - rewrite IH. unfold eachToEach. simpl. by rewrite <- app_assoc.
Qed.

(** X18 - functional suites go to the session suites.  With session
    suites made and no loading under way, [_loadFunctionalSuites] applies
    every factory that the loaded files register to every session suite, in
    the order of registration and of the session suites, and passes none to
    [super.addSuite]; when the loader returns a promise, the flag is clear
    again afterwards, however the promise ends, so that a factory added
    later goes to [super.addSuite]; when the loader throws, the flag stays
    set. *)
Theorem functional_suites_go_to_sessions (factories sessions : list nat)
    (log : list Application) (loader : LoaderEnd) (later : nat) :
  let this := {| _loadingFunctionalSuites := false; _sessionSuites := Some sessions;
                 applied := log |} in
  let after := fst (_loadFunctionalSuites factories loader this) in
  applied after = log ++ eachToEach factories sessions /\
  _loadingFunctionalSuites after = (if loader is Throws then true else false) /\
  snd (_loadFunctionalSuites factories loader this) = (if loader is Resolves then true else false) /\
  (applied <$> addSuite later after) =
    Some (applied after ++
            if loader is Throws then map (ToSession later) sessions else [ToSuper later]).
Proof.
  intros this after. subst this after. unfold _loadFunctionalSuites, setLoading. simpl.
  rewrite register_loading. by destruct loader.
Qed.

(** X19 - without session suites no functional suite is loaded.  In the
    chain of [_runTests], when no session suite was made, or when
    [super._runTests()] rejects, no factory is applied and the remote tests
    are not run; and [_runRemoteTests] is called only when session suites
    exist and the loading of the functional suites resolves.  So [addSuite]
    never meets a missing list of session suites while the flag is set by
    this chain. *)
Theorem runTests_needs_session_suites (superResolves : bool) (factories : list nat)
    (loader : LoaderEnd) (sessions : option (list nat)) (log : list Application) :
  let this := {| _loadingFunctionalSuites := false; _sessionSuites := sessions;
                 applied := log |} in
  (snd (_runTests superResolves factories loader this) = true <->
   superResolves = true /\ is_Some sessions /\ loader = Resolves) /\
  (sessions = None \/ superResolves = false ->
   _runTests superResolves factories loader this = (this, false)) /\
  (exists more, applied (fst (_runTests superResolves factories loader this)) = log ++ more /\
     Forall (fun a => exists f s, a = ToSession f s) more).
Proof.
  intros this. subst this. unfold _runTests. simpl.
  destruct superResolves; simpl.
  - destruct sessions as [sessions|]; simpl.
    + unfold _loadFunctionalSuites, setLoading. simpl. rewrite register_loading.
      split; [|split].
      * destruct loader; simpl; split; try done; try (by intros (_ & _ & [=])).
      * intros [[=]|[=]].
      * exists (eachToEach factories sessions). split; [by destruct loader|].
        unfold eachToEach. apply Forall_concat, Forall_map, Forall_forall.
        intros f _. apply Forall_map, Forall_forall. intros s _. simpl. eauto.
    + split; [|split].
      * split; [done|]. by intros (_ & [x [=]] & _).
      * done.
      * exists []. by rewrite app_nil_r.
  - split; [|split].
    + split; [done | by intros ([=] & _)].
    + done.
    + exists []. by rewrite app_nil_r.
Qed.

End SuitesFacts.

(** ** The options of the instrumenter *)
Module InstrumenterOptionsFacts.

Import InstrumenterOptions.

(** X20 - the forced options win.  Whatever [config.instrumenterOptions]
    holds, the instrumenter is made with [preserveComments] and
    [produceSourceMap] set to [true]; [coverageVariable] is the one of the
    instrumenter options if they have one and [config.coverageVariable]
    otherwise; and every other key has the value the instrumenter options
    give it, if any. *)
Theorem forced_options_win {Value : Type} (vtrue coverageVariable : Value)
    (instrumenterOptions : gmap string Value) (key : string) :
  instrumenterConfig vtrue coverageVariable instrumenterOptions !! "preserveComments"
    = Some vtrue /\
  instrumenterConfig vtrue coverageVariable instrumenterOptions !! "produceSourceMap"
    = Some vtrue /\
  instrumenterConfig vtrue coverageVariable instrumenterOptions !! "coverageVariable"
    = Some (default coverageVariable (instrumenterOptions !! "coverageVariable")) /\
  (key <> "preserveComments" -> key <> "produceSourceMap" -> key <> "coverageVariable" ->
   instrumenterConfig vtrue coverageVariable instrumenterOptions !! key
     = instrumenterOptions !! key).
Proof.
  unfold instrumenterConfig, over. repeat split.
  - apply lookup_union_Some_l. by simplify_map_eq.
  - apply lookup_union_Some_l. by simplify_map_eq.
  - rewrite lookup_union_r by (by simplify_map_eq).
    destruct (instrumenterOptions !! "coverageVariable") as [v|] eqn:E; simpl.
    + by apply lookup_union_Some_l.
    + rewrite lookup_union_r by done. by simplify_map_eq.
  - intros H1 H2 H3. rewrite lookup_union_r by (by simplify_map_eq).
    destruct (instrumenterOptions !! key) as [v|] eqn:E.
    + by apply lookup_union_Some_l.
    + rewrite lookup_union_r by done. by simplify_map_eq.
Qed.

End InstrumenterOptionsFacts.

(** ** The session suites made *)
Module CreateSessionSuitesFacts.

Import BeforeRun CreateSessionSuites.

(** X21 - no session suite without something to run.  One session suite
    is made per resolved environment, in order.  Whenever [_beforeRun]
    reaches the making of the session suites, each suite made carries a
    [RemoteSuite], or else the configuration lists a functional suite; and
    with functional suites only, no [RemoteSuite] is added. *)
Theorem session_suites_have_work (config : Config) (w : Answers) (resolved : list string) :
  map name (_createSessionSuites config resolved) = resolved /\
  (CreateSessionSuites ∈ _beforeRun config w ->
   Forall (fun s => hasRemoteSuite s = true) (_createSessionSuites config resolved) \/
   functionalSuites config <> []) /\
  (suites config = [] -> browser_suites config = [] ->
   Forall (fun s => hasRemoteSuite s = false) (_createSessionSuites config resolved)).
Proof.
  unfold _createSessionSuites. split; [|split].
  - rewrite map_map. simpl. apply map_id.
  - unfold _beforeRun, engaged.
    destruct (0 <? length (suites config) + length (browser_suites config)) eqn:Hunit.
    + intros _. left. apply Forall_map, Forall_forall. done.
    + apply Nat.ltb_ge in Hunit. intros Hin. right.
      destruct (functionalSuites config) as [|f fs] eqn:Hf; [|done].
      exfalso. simpl in Hin.
      replace (0 <? length (suites config) + length (browser_suites config)) with false in Hin
        by (symmetry; apply Nat.ltb_ge; lia).
      rewrite andb_false_r in Hin. simpl in Hin.
      destruct (serveOnly config); [|inversion Hin].
      destruct (serverStarts w).
      * apply elem_of_cons in Hin as [Hin|Hin]; [discriminate|].
        apply list_elem_of_singleton in Hin. discriminate.
      * apply list_elem_of_singleton in Hin. discriminate.
  - intros Hs Hb. rewrite Hs, Hb. simpl. apply Forall_map, Forall_forall. done.
Qed.

End CreateSessionSuitesFacts.
